(** * ENTH: page-object chunker and merger ([nonAiVersion.py])

    A shallow embedding of the two pure cores of [src/nonAiVersion.py]:

    - [batch_html_by_tokens], the chunker that groups the serialised
      children of a document body into batches bounded by a token limit;
    - [beautify_ruby_class], the merger that flattens several generated
      [class ... end] snippets into one class.

    Python [str] values are modelled as [string]; a character is read as a
    code point below 256.  Whitespace is what [str.isspace], [str.strip],
    [str.split] and the regular-expression class [\s] agree on for such
    code points: 9-13, 28-31, 32, 133 and 160. *)

From Stdlib Require Import Ascii.
From stdpp Require Import base list strings gmap.

#[local] Set Warnings "-clear-no-such-hyp,-level-tolerance".

(** ** Python string primitives *)

Module PyStr.

Definition isspace (c : ascii) : bool :=
  let n := nat_of_ascii c in
  ((9 <=? n)%nat && (n <=? 13)%nat)
  || ((28 <=? n)%nat && (n <=? 32)%nat)
  || (n =? 133)%nat || (n =? 160)%nat.

(** [all(c.isspace() for c in s)] *)
Fixpoint all_space (s : string) : bool :=
  match s with
  | "" => true
  | String c s' => isspace c && all_space s'
  end.

(** [s.lstrip()] *)
Fixpoint lstrip (s : string) : string :=
  match s with
  | "" => ""
  | String c s' => if isspace c then lstrip s' else s
  end.

(** [s.rstrip()] *)
Fixpoint rstrip (s : string) : string :=
  match s with
  | "" => ""
  | String c s' =>
      match rstrip s' with
      | "" => if isspace c then "" else String c ""
      | r => String c r
      end
  end.

(** [s.strip()] *)
Definition strip (s : string) : string := rstrip (lstrip s).

(** [s.startswith(p)], returning the remainder of [s] after [p]. *)
Fixpoint strip_prefix (p s : string) : option string :=
  match p with
  | "" => Some s
  | String a p' =>
      match s with
      | "" => None
      | String b s' => if Ascii.eqb a b then strip_prefix p' s' else None
      end
  end.

Definition startswith (s p : string) : bool :=
  match strip_prefix p s with Some _ => true | None => false end.

(** [s.split(sep)] for a one-character separator. *)
Fixpoint split (sep : ascii) (s : string) : list string :=
  match s with
  | "" => [""]
  | String c s' =>
      if Ascii.eqb c sep then "" :: split sep s'
      else match split sep s' with
           | h :: t => String c h :: t
           | [] => [String c ""]
           end
  end.

(** [sep.join(l)] *)
Fixpoint join (sep : string) (l : list string) : string :=
  match l with
  | [] => ""
  | x :: rest =>
      match rest with
      | [] => x
      | _ :: _ => x +:+ sep +:+ join sep rest
      end
  end.

(** [s.replace(old, new)] for a non-empty [old]: a left-to-right scan that
    replaces every non-overlapping occurrence.  [skip] counts the characters
    of an occurrence that was just replaced and still has to be stepped
    over. *)
Fixpoint replace_from (old new : string) (skip : nat) (s : string) : string :=
  match s with
  | "" => ""
  | String c s' =>
      match skip with
      | S k => replace_from old new k s'
      | O =>
          if startswith s old
          then new +:+ replace_from old new (String.length old - 1) s'
          else String c (replace_from old new 0 s')
      end
  end.

Definition replace (old new s : string) : string := replace_from old new 0 s.

(** [s.split()]: the maximal runs of non-whitespace characters. *)
Fixpoint split_ws (s : string) : list string :=
  match s with
  | "" => []
  | String c s' =>
      if isspace c then split_ws s'
      else match s' with
           | "" => [String c ""]
           | String c' _ =>
               if isspace c' then String c "" :: split_ws s'
               else match split_ws s' with
                    | h :: t => String c h :: t
                    | [] => [String c ""]
                    end
           end
  end.

(** Longest prefix of [s] whose characters satisfy [p] (a greedy [[...]+]
    or [[...]*] of a regular expression). *)
Fixpoint take_while (p : ascii → bool) (s : string) : string :=
  match s with
  | "" => ""
  | String c s' => if p c then String c (take_while p s') else ""
  end.

(** Python truthiness of a string. *)
Definition truthy (s : string) : bool :=
  match s with "" => false | _ => true end.

Definition LF : ascii := "010"%char.
Definition CR : ascii := "013"%char.
Definition nl : string := String LF "".
Definition cr : string := String CR "".

End PyStr.

Import PyStr.

(** ** The chunker: [count_tokens] and [batch_html_by_tokens] *)

(** [len(text.split())] *)
Definition count_tokens (text : string) : Z :=
  Z.of_nat (length (split_ws text)).

Module Chunker.

(** Loop state of [batch_html_by_tokens]. *)
Record state := mk_state {
  batches : list string;
  current_batch : string
}.

Definition init : state := mk_state [] "".

(** One iteration of [for element in body.children].  [element] is
    [str(element)], the serialisation of one direct child of the body after
    the script nodes have been removed by the HTML library. *)
Definition step (token_limit : Z) (st : state) (element : string) : state :=
  let elem_str := strip element in
  if negb (truthy elem_str) then st
  else
    let tokens_in_elem := count_tokens elem_str in
    if (token_limit <? tokens_in_elem)%Z then
      let st1 :=
        if truthy (current_batch st)
        then mk_state (batches st ++ [current_batch st]) ""
        else st in
      mk_state (batches st1 ++ [elem_str]) (current_batch st1)
    else
      let current_tokens := count_tokens (current_batch st) in
      if (current_tokens + tokens_in_elem <=? token_limit)%Z
      then mk_state (batches st) (current_batch st +:+ nl +:+ elem_str)
      else mk_state (batches st ++ [current_batch st]) elem_str.

(** The trailing [if current_batch: batches.append(current_batch)]. *)
Definition finish (st : state) : list string :=
  if truthy (current_batch st)
  then batches st ++ [current_batch st]
  else batches st.

Definition run (token_limit : Z) (children : list string) : state :=
  foldl (step token_limit) init children.

(** The list [batches] before wrapping. *)
Definition batch_contents (children : list string) (token_limit : Z)
  : list string :=
  finish (run token_limit children).

Definition wrap (batch : string) : string :=
  "<html><head></head><body>" +:+ batch +:+ "</body></html>".

End Chunker.

(** [batch_html_by_tokens], over the serialised children of the body. *)
Definition batch_html_by_tokens (children : list string) (token_limit : Z)
  : list string :=
  map Chunker.wrap (Chunker.batch_contents children token_limit).

(** ** The merger: [beautify_ruby_class] *)

Module Merger.

(** *** Regular expressions of the merger

    Each pattern is used with [re.match], anchored at the start of its
    argument.  In every pattern a greedy [\s*] or [\s+] is followed by a
    literal that starts with a non-whitespace character, so matching is
    deterministic: skip all whitespace, then compare the literal. *)

(** [^\s*include\s+PageObject\s*$] *)
Definition include_re (s : string) : bool :=
  match strip_prefix "include" (lstrip s) with
  | Some (String c _ as r) =>
      isspace c &&
      match strip_prefix "PageObject" (lstrip r) with
      | Some r' => all_space r'
      | None => false
      end
  | _ => false
  end.

Definition accessor_keywords : list string :=
  [ "text_field"; "hidden_field"; "button"; "link"; "select_list"; "checkbox";
    "radio_button"; "radio_button_group"; "textarea"; "div"; "span"; "table";
    "cell"; "image"; "element"; "heading"; "paragraph" ].

(** [^\s*(?:text_field|...|paragraph)\s*\(]: some alternative is followed by
    optional whitespace and an opening parenthesis. *)
Definition accessor_pattern (s : string) : bool :=
  existsb
    (λ kw, match strip_prefix kw (lstrip s) with
           | Some r => startswith (lstrip r) "("
           | None => false
           end)
    accessor_keywords.

Definition name_char (c : ascii) : bool :=
  let n := nat_of_ascii c in
  ((97 <=? n)%nat && (n <=? 122)%nat)
  || ((65 <=? n)%nat && (n <=? 90)%nat)
  || ((48 <=? n)%nat && (n <=? 57)%nat)
  || (n =? 95)%nat || (n =? 33)%nat || (n =? 63)%nat.

(** [^\s*def\s+([a-zA-Z0-9_!?]+)]; the result is [group(1)]. *)
Definition def_pattern (line : string) : option string :=
  match strip_prefix "def" (lstrip line) with
  | Some (String c _ as r) =>
      if isspace c then
        match take_while name_char (lstrip r) with
        | "" => None
        | name => Some name
        end
      else None
  | _ => None
  end.

(** [^\s*end\s*$] *)
Definition end_pattern (line : string) : bool :=
  match strip_prefix "end" (lstrip line) with
  | Some r => all_space r
  | None => false
  end.

(** *** Step 0: line endings *)

(** [combined_code.replace("\r\n", "\n").replace("\r", "\n")] *)
Definition normalize (combined_code : string) : string :=
  replace cr nl (replace (cr +:+ nl) nl combined_code).

Definition code_lines (combined_code : string) : list string :=
  split LF (normalize combined_code).

(** *** Step 1: flatten the class blocks *)

Record flat_state := mk_flat {
  in_class : nat;
  flattened_lines : list string
}.

Definition flatten_step (st : flat_state) (line : string) : flat_state :=
  let stripped := strip line in
  if startswith stripped "class " then
    mk_flat (S (in_class st)) (flattened_lines st)
  else if String.eqb stripped "end" then
    if (0 <? in_class st)%nat
    then mk_flat (in_class st - 1) (flattened_lines st)
    else st
  else
    if (0 <? in_class st)%nat
    then mk_flat (in_class st) (flattened_lines st ++ [line])
    else st.

Definition flatten_classes (lines : list string) : list string :=
  flattened_lines (foldl flatten_step (mk_flat 0 []) lines).

(** [if not flattened_lines: flattened_lines = lines[:]] *)
Definition block_content (lines : list string) : list string :=
  match flatten_classes lines with
  | [] => lines
  | fl => fl
  end.

(** *** Step 2: the [include PageObject] directive *)

Record include_state := mk_inc {
  includes_found : list string;
  tmp_after_includes : list string
}.

Definition include_step (st : include_state) (line : string) : include_state :=
  if include_re (strip line)
  then mk_inc (includes_found st ++ [strip line]) (tmp_after_includes st)
  else mk_inc (includes_found st) (tmp_after_includes st ++ [line]).

Definition extract_includes (flattened : list string) : include_state :=
  foldl include_step (mk_inc [] []) flattened.

(** *** Step 3: accessors *)

Record accessor_state := mk_acc {
  accessors : list string;
  seen_accessors : gset string;
  lines_after_accessors : list string
}.

Definition accessor_step (st : accessor_state) (line : string)
  : accessor_state :=
  if accessor_pattern (strip line) then
    let norm := strip line in
    if decide (norm ∈ seen_accessors st) then st
    else mk_acc (accessors st ++ [norm]) ({[ norm ]} ∪ seen_accessors st)
                (lines_after_accessors st)
  else mk_acc (accessors st) (seen_accessors st)
              (lines_after_accessors st ++ [line]).

Definition extract_accessors (flattened : list string) : accessor_state :=
  foldl accessor_step (mk_acc [] ∅ []) flattened.

(** *** Step 4: method definitions *)

(** [methods_extracted] is a Python dict; its iteration order is insertion
    order, so it is kept as an association list with unique keys. *)
Definition method_dict := list (string * list (list string)).

(** [if k not in d: d[k] = []] followed by [d[k].append(block)] *)
Fixpoint dict_append (d : method_dict) (k : string) (block : list string)
  : method_dict :=
  match d with
  | [] => [(k, [block])]
  | (k', blocks) :: d' =>
      if decide (k = k') then (k', blocks ++ [block]) :: d'
      else (k', blocks) :: dict_append d' k block
  end.

Record scan_state := mk_scan {
  methods_extracted : method_dict;
  leftover : list string;
  in_method : bool;
  current_method_name : option string;
  current_method_lines : list string
}.

Definition scan_init : scan_state := mk_scan [] [] false None [].

(** The nested function [flush_method]. *)
Definition flush_method (st : scan_state) : scan_state :=
  let methods :=
    match current_method_name st, current_method_lines st with
    | Some name, _ :: _ =>
        dict_append (methods_extracted st) name (current_method_lines st)
    | _, _ => methods_extracted st
    end in
  mk_scan methods (leftover st) (in_method st) None [].

Definition scan_step (st : scan_state) (line : string) : scan_state :=
  match def_pattern line, in_method st with
  | Some name, false =>
      let st1 :=
        flush_method (mk_scan (methods_extracted st) (leftover st) true
                              (current_method_name st)
                              (current_method_lines st)) in
      mk_scan (methods_extracted st1) (leftover st1) (in_method st1)
              (Some name) [line]
  | _, true =>
      if end_pattern line then
        let st1 :=
          flush_method (mk_scan (methods_extracted st) (leftover st)
                                (in_method st) (current_method_name st)
                                (current_method_lines st ++ [line])) in
        mk_scan (methods_extracted st1) (leftover st1) false
                (current_method_name st1) (current_method_lines st1)
      else
        mk_scan (methods_extracted st) (leftover st) (in_method st)
                (current_method_name st) (current_method_lines st ++ [line])
  | None, false =>
      mk_scan (methods_extracted st) (leftover st ++ [line]) (in_method st)
              (current_method_name st) (current_method_lines st)
  end.

(** The loop followed by
    [if in_method and current_method_lines: flush_method()]. *)
Definition scan_finish (st : scan_state) : scan_state :=
  match in_method st, current_method_lines st with
  | true, _ :: _ => flush_method st
  | _, _ => st
  end.

Definition scan_methods (lines : list string) : scan_state :=
  scan_finish (foldl scan_step scan_init lines).

(** *** Step 5: merging the definitions of one method *)

Definition separator : string :=
  "      # ----- Merged from duplicate method definition -----".

(** The slice [b[1:-1]]. *)
Definition inner (b : list string) : list string :=
  drop 1 (take (length b - 1) b).

(** One iteration of [for m_name, blocks in methods_extracted.items()].
    The outer [None] is an [IndexError] raised by [first_block[0]] or
    [first_block[-1]]; the inner [None] is the [continue] on an empty list
    of blocks. *)
Definition unify_blocks (blocks : list (list string))
  : option (option string) :=
  match blocks with
  | [] => Some None
  | first_block :: others =>
      opening ← head first_block;
      let final_method_body :=
        inner first_block
        ++ concat (map (λ other_block, separator :: inner other_block) others) in
      if (1 <? length first_block)%nat then
        closing ← last first_block;
        Some (Some (join nl ([opening] ++ final_method_body ++ [closing])))
      else
        Some (Some (join nl ([opening] ++ final_method_body ++ ["end"])))
  end.

Fixpoint merge_methods (d : method_dict) : option (list string) :=
  match d with
  | [] => Some []
  | (_, blocks) :: d' =>
      m ← unify_blocks blocks;
      rest ← merge_methods d';
      Some (match m with Some text => text :: rest | None => rest end)
  end.

(** *** Step 6: assembly *)

Definition indent (line : string) : string := "  " +:+ line.

Definition leftover_header : string :=
  "  # leftover lines that did not belong to any recognized method or accessor".

Definition header_section (site_name : string) : list string :=
  ["class " +:+ site_name; ""].

Definition directive_section (found_include_pageobject : bool) : list string :=
  if found_include_pageobject then ["  include PageObject"; ""] else [].

Definition accessor_section (accs : list string) : list string :=
  map indent accs.

Definition method_section (merged_methods : list string) : list string :=
  concat (map (λ method_def, map indent (split LF method_def) ++ [""])
              merged_methods).

Definition leftover_stripped (left : list string) : list string :=
  filter (λ ln, truthy (strip ln)) left.

Definition leftover_section (left : list string) : list string :=
  match leftover_stripped left with
  | [] => []
  | lns => leftover_header :: map (λ ln, indent (strip ln)) lns
  end.

(** The parse artefacts of one run, before assembly. *)
Record parts := mk_parts {
  found_include_pageobject : bool;
  p_accessors : list string;
  p_methods : method_dict;
  p_leftover : list string
}.

Definition analyse_lines (lines : list string) : parts :=
  let flattened := block_content lines in
  let inc := extract_includes flattened in
  let acc := extract_accessors (tmp_after_includes inc) in
  let sc := scan_methods (lines_after_accessors acc) in
  mk_parts (bool_decide (0 < length (includes_found inc)))
           (accessors acc) (methods_extracted sc) (leftover sc).

Definition analyse (combined_code : string) : parts :=
  analyse_lines (code_lines combined_code).

Definition final_lines (site_name : string) (p : parts)
    (merged_methods : list string) : list string :=
  header_section site_name
  ++ directive_section (found_include_pageobject p)
  ++ accessor_section (p_accessors p) ++ [""]
  ++ method_section merged_methods
  ++ leftover_section (p_leftover p)
  ++ ["end"].

End Merger.

Import Merger.

(** [beautify_ruby_class]; [None] stands for a raised exception. *)
Definition beautify_ruby_class (combined_code site_name : string)
  : option string :=
  let p := analyse combined_code in
  merged_methods ← merge_methods (p_methods p);
  Some (join nl (final_lines site_name p merged_methods)).


(** ** The accumulation loop of [main]

    [combined_pageobject = ""] followed, for every batch in order, by
    [combined_pageobject += pageobject + "\n"].  [pageobjects] are the
    answers of the generation service, one per batch; a failed call
    contributes the empty string. *)
Definition combine_pageobjects (pageobjects : list string) : string :=
  foldl (λ combined_pageobject pageobject,
           combined_pageobject +:+ (pageobject +:+ nl))
        "" pageobjects.

(** * Specification-level definitions

    The vocabulary in which the properties below are stated. *)

Module Spec.

(** ** Characters and whitespace *)

(** [c in s] *)
Fixpoint contains (c : ascii) (s : string) : bool :=
  match s with
  | "" => false
  | String a s' => Ascii.eqb a c || contains c s'
  end.

(** No character of [s] is whitespace. *)
Fixpoint no_space (s : string) : bool :=
  match s with
  | "" => true
  | String c s' => negb (isspace c) && no_space s'
  end.

(** ** First-seen order *)

(** Deduplication that keeps the first occurrence of every element. *)
Fixpoint first_seen (l : list string) : list string :=
  match l with
  | [] => []
  | x :: l' => x :: filter (λ y, y ≠ x) (first_seen l')
  end.

(** Appending an element only when it is new: what both the accessor loop
    and the method dictionary do with their keys. *)
Definition add_new (known : list string) (x : string) : list string :=
  if decide (x ∈ known) then known else known ++ [x].

(** ** The chunker *)

(** What may be stored in [batches]: accumulated content within the limit,
    or one stripped child that is over the limit by itself. *)
Definition chunk_ok (token_limit : Z) (children : list string)
    (chunk : string) : Prop :=
  (count_tokens chunk ≤ token_limit)%Z
  ∨ ∃ element, element ∈ children ∧ chunk = strip element
               ∧ (token_limit < count_tokens chunk)%Z.

Definition state_ok (token_limit : Z) (children : list string)
    (st : Chunker.state) : Prop :=
  Forall (chunk_ok token_limit children) (Chunker.batches st)
  ∧ (Chunker.current_batch st = "" ∨ (count_tokens (Chunker.current_batch st) ≤ token_limit)%Z).

(** ** Directive and accessor lines *)

Definition is_directive (line : string) : bool := include_re (strip line).
Definition is_accessor (line : string) : bool := accessor_pattern (strip line).

(** The set [seen_accessors] always holds the elements of [accessors]. *)
Definition seen_ok (st : accessor_state) : Prop :=
  ∀ x, x ∈ seen_accessors st ↔ x ∈ accessors st.

(** ** The two-state scanner *)

(** The spans that the two-state scanner files, in filing order.
    [capturing] is the capture in progress, if any: its name and the lines
    captured so far.  At the end of the input an open capture is filed as it
    stands. *)
Fixpoint occurrences (capturing : option (string * list string))
    (lines : list string) : list (string * list string) :=
  match lines with
  | [] =>
      match capturing with
      | Some (name, span) => [(name, span)]
      | None => []
      end
  | line :: rest =>
      match capturing with
      | Some (name, span) =>
          if end_pattern line
          then (name, span ++ [line]) :: occurrences None rest
          else occurrences (Some (name, span ++ [line])) rest
      | None =>
          match def_pattern line with
          | Some name => occurrences (Some (name, [line])) rest
          | None => occurrences None rest
          end
      end
  end.

(** The lines that are outside every capture. *)
Fixpoint leftovers (capturing : bool) (lines : list string) : list string :=
  match lines with
  | [] => []
  | line :: rest =>
      if capturing then leftovers (negb (end_pattern line)) rest
      else match def_pattern line with
           | Some _ => leftovers true rest
           | None => line :: leftovers false rest
           end
  end.

Definition file_span (d : method_dict) (o : string * list string)
  : method_dict :=
  dict_append d o.1 o.2.

(** [d.get(k, [])] *)
Fixpoint dict_get (d : method_dict) (k : string) : list (list string) :=
  match d with
  | [] => []
  | (k', blocks) :: d' => if decide (k = k') then blocks else dict_get d' k
  end.

(** Reachable scanner states: a name and at least one line while capturing,
    neither otherwise. *)
Definition scan_wf (st : scan_state) : Prop :=
  if in_method st
  then ∃ name, current_method_name st = Some name
               ∧ current_method_lines st ≠ []
  else current_method_name st = None ∧ current_method_lines st = [].

Definition capture_of (st : scan_state) : option (string * list string) :=
  if in_method st
  then (λ name, (name, current_method_lines st)) <$> current_method_name st
  else None.

(** A filed span starts with the line that opened the capture. *)
Definition span_ok (o : string * list string) : Prop :=
  ∃ opening rest, o.2 = opening :: rest ∧ def_pattern opening = Some o.1.

(** ** Merged definitions *)

(** The merged definition of one name, from its spans in filing order: the
    first span's opening line, its inner lines, a separator and the inner
    lines of every later span, and the first span's last line; when the
    first span is its opening line alone, a literal [end] closes instead. *)
Definition merged_definition (blocks : list (list string)) : list string :=
  match blocks with
  | [] => []
  | first_block :: others =>
      [default "" (head first_block)]
      ++ inner first_block
      ++ concat ((λ other_block, separator :: inner other_block) <$> others)
      ++ [if decide (1 < length first_block)
          then default "" (last first_block) else "end"]
  end.


(** The statement that only an unindented [end] closes a capture. *)
Definition closes_only_on_bare_end : Prop :=
  ∀ st line,
    in_method st = true →
    in_method (scan_step st line) = false →
    line = "end".

(** ** The pipeline *)

(** The stream that reaches the method scanner. *)
Definition method_stream (lines : list string) : list string :=
  lines_after_accessors
    (extract_accessors
       (tmp_after_includes (extract_includes (block_content lines)))).

(** The lines between the opening [class] line and the closing [end]. *)
Definition body_lines (p : parts) (merged_methods : list string)
  : list string :=
  "" :: directive_section (found_include_pageobject p)
  ++ accessor_section (p_accessors p) ++ [""]
  ++ method_section merged_methods
  ++ leftover_section (p_leftover p).

End Spec.

Import Spec.

(** Further vocabulary, for the properties beyond the pipeline's main
    guarantees. *)
Module Shapes.

(** The children that the chunker measures: the non-blank ones, stripped. *)
Definition elements (children : list string) : list string :=
  strip <$> filter (λ e, truthy (strip e)) children.

(** A chunk content holds the group [g] of elements: the elements joined by
    newlines, with a leading newline when the accumulation started from the
    empty string. *)
Definition chunk_of_group (content : string) (g : list string) : Prop :=
  g ≠ [] ∧ (content = join nl g ∨ content = nl +:+ join nl g).

(** The state of the chunker's loop against the groups of elements consumed
    so far: one group per stored batch, and the group of the accumulation. *)
Definition grouped (st : Chunker.state) (groups : list (list string))
    (g : list string) : Prop :=
  Forall2 chunk_of_group (Chunker.batches st) groups
  ∧ ((Chunker.current_batch st = "" ∧ g = [])
     ∨ (Chunker.current_batch st ≠ ""
        ∧ chunk_of_group (Chunker.current_batch st) g)).

(** The sum of the unit counts of all children. *)
Definition total_tokens (children : list string) : Z :=
  foldr (λ e acc, (count_tokens e + acc)%Z) 0%Z children.

(** What the accumulation holds after the elements [g] were appended to the
    empty string one by one. *)
Definition accumulated (g : list string) : string :=
  match g with
  | [] => ""
  | _ :: _ => nl +:+ join nl g
  end.

(** [s] starts with a character that is not whitespace. *)
Definition starts_word (s : string) : bool :=
  match s with
  | "" => false
  | String c _ => negb (isspace c)
  end.

(** [s] is empty or its last character is whitespace. *)
Fixpoint open_end (s : string) : bool :=
  match s with
  | "" => true
  | String c "" => isspace c
  | String _ s' => open_end s'
  end.

(** All characters of [s] are name characters. *)
Fixpoint all_name_chars (s : string) : bool :=
  match s with
  | "" => true
  | String c s' => name_char c && all_name_chars s'
  end.

(** A span that was closed by an [end] line: that line is its last, and no
    earlier line of the span is one. *)
Definition span_closed (o : string * list string) : Prop :=
  ∃ body closing,
    o.2 = body ++ [closing]
    ∧ end_pattern closing = true
    ∧ Forall (λ l, end_pattern l = false) body.

(** A span that the end of the input cut: no line of it is an [end] line. *)
Definition span_open (o : string * list string) : Prop :=
  Forall (λ l, end_pattern l = false) o.2.


(** The capture in progress holds no [end] line. *)
Definition capture_open (st : scan_state) : Prop :=
  ∀ o, capture_of st = Some o → span_open o.

End Shapes.

Import Shapes.

(** * Properties *)

(** ** Strings *)

Section string_facts.

Lemma app_empty_l (s : string) : "" +:+ s = s.
Proof. reflexivity. Qed.

Lemma app_String (c : ascii) (s t : string) :
  String c s +:+ t = String c (s +:+ t).
Proof. reflexivity. Qed.

Lemma app_empty_r (s : string) : s +:+ "" = s.
Proof. induction s as [|c s IH]; [done|]. by rewrite app_String, IH. Qed.

Lemma app_assoc_s (s t u : string) : (s +:+ t) +:+ u = s +:+ t +:+ u.
Proof. induction s as [|c s IH]; [done|]. by rewrite !app_String, IH. Qed.

Lemma split_ws_head_nonspace (c : ascii) (s : string) :
  isspace c = false → split_ws (String c s) ≠ [].
Proof.
  intros Hc. simpl. rewrite Hc. destruct s as [|c' s']; [done|].
  destruct (isspace c'); [done|]. by destruct (split_ws (String c' s')).
Qed.

(** Words on both sides of a whitespace character are counted separately. *)
Lemma split_ws_sep (a : string) (c : ascii) (b : string) :
  isspace c = true →
  split_ws (a +:+ String c b) = split_ws a ++ split_ws b.
Proof.
  intros Hc. induction a as [|x a IH].
  - rewrite app_empty_l. simpl. by rewrite Hc.
  - rewrite app_String. simpl. destruct (isspace x) eqn:Hx; [done|].
    destruct a as [|y a'].
    + rewrite app_empty_l in *. by rewrite Hc, IH.
    + rewrite app_String in *. destruct (isspace y) eqn:Hy.
      * by rewrite IH.
      * rewrite IH. pose proof (split_ws_head_nonspace y a' Hy).
        by destruct (split_ws (String y a')).
Qed.

Lemma count_tokens_newline (a b : string) :
  count_tokens (a +:+ nl +:+ b) = (count_tokens a + count_tokens b)%Z.
Proof.
  unfold count_tokens, nl. rewrite app_String, app_empty_l.
  rewrite split_ws_sep by done. rewrite length_app. lia.
Qed.

Lemma truthy_true (s : string) : truthy s = true ↔ s ≠ "".
Proof. by destruct s. Qed.

Lemma truthy_false (s : string) : truthy s = false ↔ s = "".
Proof. by destruct s. Qed.

End string_facts.

(** ** The chunker *)

Module ChunkerFacts.
Import Chunker.

Section with_limit.
Variable token_limit : Z.

Lemma chunk_ok_mono (xs ys : list string) (chunk : string) :
  xs ⊆ ys → chunk_ok token_limit xs chunk → chunk_ok token_limit ys chunk.
Proof.
  intros Hsub [H|(e & He & Hc & Hl)]; [by left|].
  right. exists e. split_and!; auto.
Qed.

Lemma step_ok (children : list string) (st : state) (element : string) :
  element ∈ children → state_ok token_limit children st →
  state_ok token_limit children (step token_limit st element).
Proof.
  intros Hin [Hb Hc]. unfold step.
  destruct (truthy (strip element)) eqn:Ht; simpl; [|by split].
  destruct (Z.ltb_spec token_limit (count_tokens (strip element))) as [Hbig|Hsmall].
  - destruct (truthy (current_batch st)) eqn:Hcur; simpl.
    + split; [|by left]. apply Forall_app. split.
      * apply Forall_app. split; [done|]. apply Forall_singleton. left.
        destruct Hc as [Hc|Hc]; [|done].
        apply truthy_true in Hcur. done.
      * apply Forall_singleton. right. by exists element.
    + split; [|done]. apply Forall_app. split; [done|].
      apply Forall_singleton. right. by exists element.
  - destruct (Z.leb_spec (count_tokens (current_batch st)
                          + count_tokens (strip element)) token_limit)
      as [Hfit|Hover]; simpl.
    + split; [done|]. right. simpl. by rewrite count_tokens_newline.
    + split; [|by right]. apply Forall_app. split; [done|].
      apply Forall_singleton. left.
      destruct Hc as [Hc|Hc]; [|done].
      rewrite Hc in Hover. change (count_tokens "") with 0%Z in Hover. lia.
Qed.

Lemma run_ok_gen (children xs : list string) (st : state) :
  xs ⊆ children → state_ok token_limit children st →
  state_ok token_limit children (foldl (step token_limit) st xs).
Proof.
  revert st. induction xs as [|x xs IH]; intros st Hsub Hst; [done|].
  simpl. apply IH.
  - intros y Hy. apply Hsub. by right.
  - apply step_ok; [|done]. apply Hsub. by left.
Qed.

Lemma finish_ok (children : list string) (st : state) :
  state_ok token_limit children st → Forall (chunk_ok token_limit children) (finish st).
Proof.
  intros [Hb Hc]. unfold finish.
  destruct (truthy (current_batch st)) eqn:Hcur; [|done].
  apply Forall_app. split; [done|]. apply Forall_singleton. left.
  destruct Hc as [Hc|Hc]; [|done]. apply truthy_true in Hcur. done.
Qed.

(** Batches already emitted are never touched again. *)
Lemma foldl_step_batches (done_ : list string) (st : state) (xs : list string) :
  foldl (step token_limit) (mk_state (done_ ++ batches st) (current_batch st)) xs
  = let st' := foldl (step token_limit) st xs in
    mk_state (done_ ++ batches st') (current_batch st').
Proof.
  revert st. induction xs as [|x xs IH]; intros st; [done|].
  simpl. rewrite <- IH. f_equal. unfold step. simpl.
  destruct (truthy (strip x)); simpl; [|done].
  destruct (token_limit <? count_tokens (strip x))%Z.
  - destruct (truthy (current_batch st)); simpl; by rewrite <- ?(assoc_L (++)).
  - destruct (count_tokens (current_batch st) + count_tokens (strip x)
              <=? token_limit)%Z; simpl; by rewrite <- ?(assoc_L (++)).
Qed.

Lemma step_oversized (st : state) (element : string) :
  strip element ≠ "" →
  (token_limit < count_tokens (strip element))%Z →
  step token_limit st element = mk_state (finish st ++ [strip element]) "".
Proof.
  intros Hne Hbig. unfold step, finish.
  apply truthy_true in Hne. rewrite Hne. simpl.
  apply Z.ltb_lt in Hbig. rewrite Hbig.
  destruct (truthy (current_batch st)) eqn:Hcur; simpl; [done|].
  apply truthy_false in Hcur. by rewrite Hcur.
Qed.

Lemma batch_contents_oversized (pre : list string) (element : string)
    (post : list string) :
  strip element ≠ "" →
  (token_limit < count_tokens (strip element))%Z →
  batch_contents (pre ++ element :: post) token_limit
  = batch_contents pre token_limit ++ [strip element]
    ++ batch_contents post token_limit.
Proof.
  intros Hne Hbig. unfold batch_contents, run.
  rewrite foldl_app. simpl. rewrite step_oversized by done.
  pose proof (foldl_step_batches
                (finish (foldl (step token_limit) init pre) ++ [strip element])
                init post) as H.
  simpl in H. rewrite app_nil_r in H. rewrite H.
  generalize (finish (foldl (step token_limit) init pre)) as flushed.
  generalize (foldl (step token_limit) init post) as st'.
  intros st' flushed. unfold finish. simpl.
  destruct (truthy (current_batch st')); by rewrite <- ?(assoc_L (++)).
Qed.

End with_limit.
End ChunkerFacts.

(** C8. Every chunk returned by [batch_html_by_tokens] wraps a content that
    either has at most [token_limit] whitespace-separated units, or is one
    stripped child, kept whole, whose own count exceeds the limit.  A
    non-blank child over the limit is emitted as a chunk of its own, after
    the batches of the children before it (the pending accumulation flushed
    as the last of them when non-empty) and before the batches of the
    children after it, which start from an empty accumulation. *)
Theorem chunk_size_invariant (children : list string) (token_limit : Z) :
  Forall (λ chunk, ∃ content,
            chunk = Chunker.wrap content
            ∧ ((count_tokens content ≤ token_limit)%Z
               ∨ ∃ element, element ∈ children ∧ content = strip element
                            ∧ (token_limit < count_tokens content)%Z))
         (batch_html_by_tokens children token_limit)
  ∧ ∀ pre element post,
      children = pre ++ element :: post →
      strip element ≠ "" →
      (token_limit < count_tokens (strip element))%Z →
      batch_html_by_tokens children token_limit
      = batch_html_by_tokens pre token_limit
        ++ [Chunker.wrap (strip element)]
        ++ batch_html_by_tokens post token_limit.
Proof.
  split.
  - unfold batch_html_by_tokens. apply Forall_map.
    assert (Forall (chunk_ok token_limit children)
              (Chunker.batch_contents children token_limit)) as H.
    { apply ChunkerFacts.finish_ok, ChunkerFacts.run_ok_gen; [done|].
      split; [constructor|by left]. }
    eapply Forall_impl; [exact H|]. intros content Hc. by exists content.
  - intros pre element post -> Hne Hbig. unfold batch_html_by_tokens.
    rewrite ChunkerFacts.batch_contents_oversized by done.
    by rewrite !map_app.
Qed.

Lemma chunk_size_invariant_witness :
  batch_html_by_tokens ["a"; " b c d "; "e"] 2
  = batch_html_by_tokens ["a"] 2 ++ [Chunker.wrap (strip " b c d ")]
    ++ batch_html_by_tokens ["e"] 2.
Proof.
  apply (proj2 (chunk_size_invariant ["a"; " b c d "; "e"] 2)
           ["a"] " b c d " ["e"]);
    [reflexivity|by vm_compute|reflexivity].
Defined.

(** ** Whitespace stripping and the [end] pattern *)

Section strip_facts.

Lemma rstrip_empty_iff (s : string) : rstrip s = "" ↔ all_space s = true.
Proof.
  induction s as [|c s IH]; simpl; [done|].
  destruct (rstrip s) eqn:Hr.
  - destruct (isspace c); simpl; [by rewrite <- IH|split; done].
  - split; [done|]. intros [_ Hs]%andb_prop. apply IH in Hs. done.
Qed.

Lemma rstrip_cons_nonspace (c : ascii) (s : string) :
  isspace c = false → rstrip (String c s) = String c (rstrip s).
Proof. intros Hc. simpl. rewrite Hc. by destruct (rstrip s). Qed.

Lemma lstrip_all_space_app (ws s : string) :
  all_space ws = true → lstrip (ws +:+ s) = lstrip s.
Proof.
  induction ws as [|c ws IH]; [done|]. simpl.
  intros [Hc Hws]%andb_prop. rewrite Hc. auto.
Qed.

(** A line has the shape of the pattern when it splits into its leading
    whitespace and the rest. *)
Lemma lstrip_split (s : string) :
  ∃ ws, all_space ws = true ∧ s = ws +:+ lstrip s.
Proof.
  induction s as [|c s (ws & Hws & IH)]; [by exists ""|].
  simpl. destruct (isspace c) eqn:Hc.
  - exists (String c ws). simpl. rewrite Hc, Hws. split; [done|].
    by rewrite app_String, <- IH.
  - by exists "".
Qed.

Lemma strip_prefix_Some (p s r : string) :
  strip_prefix p s = Some r ↔ s = p +:+ r.
Proof.
  revert s. induction p as [|a p IH]; intros s; simpl.
  - rewrite app_empty_l. split; congruence.
  - rewrite app_String. destruct s as [|b s]; [split; done|].
    destruct (Ascii.eqb_spec a b) as [->|Hne].
    + rewrite IH. split; congruence.
    + split; [done|]. congruence.
Qed.

(** Stripping on the right yields a given word without whitespace exactly
    when the string is that word followed by whitespace only. *)
Lemma rstrip_eq_word (p t : string) :
  no_space p = true →
  rstrip t = p ↔ ∃ r, t = p +:+ r ∧ all_space r = true.
Proof.
  revert t. induction p as [|a p IH]; intros t Hp.
  - rewrite rstrip_empty_iff. split; [by exists t|by intros (r & -> & Hr)].
  - simpl in Hp. apply andb_prop in Hp as [Ha%negb_true_iff Hp].
    destruct t as [|b t].
    + split; [done|]. by intros (r & Hr & _).
    + split.
      * intros Hr. cbn [rstrip] in Hr.
        assert (b = a ∧ rstrip t = p) as [-> Ht].
        { destruct (rstrip t); [destruct (isspace b)|]; by simplify_eq. }
        apply IH in Ht as (r & -> & Hr'); [|done]. by exists r.
      * intros (r & Heq & Hr). rewrite app_String in Heq. simplify_eq.
        rewrite rstrip_cons_nonspace by done. f_equal. apply IH; eauto.
Qed.

(** [end_pattern] accepts exactly the lines whose stripped form is [end]. *)
Lemma end_pattern_strip (line : string) :
  end_pattern line = true ↔ strip line = "end".
Proof.
  unfold end_pattern, strip. rewrite (rstrip_eq_word "end") by done.
  destruct (strip_prefix "end" (lstrip line)) as [r|] eqn:Hp.
  - apply strip_prefix_Some in Hp. rewrite Hp. split; [by exists r|].
    by intros (r' & ->%(inj (String.app "end")) & Hr).
  - split; [done|]. intros (r & Hr & _).
    apply strip_prefix_Some in Hr. congruence.
Qed.

(** The same set of lines, spelled out: [end] between optional runs of
    whitespace, so an indented [end] is accepted too. *)
Lemma end_pattern_shape (line : string) :
  end_pattern line = true ↔
  ∃ ws1 ws2, all_space ws1 = true ∧ all_space ws2 = true
             ∧ line = ws1 +:+ "end" +:+ ws2.
Proof.
  unfold end_pattern. split.
  - destruct (strip_prefix "end" (lstrip line)) as [r|] eqn:Hp; [|done].
    intros Hr. apply strip_prefix_Some in Hp.
    destruct (lstrip_split line) as (ws & Hws & Hl).
    exists ws, r. split_and!; [done..|]. by rewrite <- Hp.
  - intros (ws1 & ws2 & H1 & H2 & ->).
    rewrite lstrip_all_space_app by done.
    change (lstrip ("end" +:+ ws2)) with ("end" +:+ ws2).
    by assert (strip_prefix "end" ("end" +:+ ws2) = Some ws2) as ->
      by by apply strip_prefix_Some.
Qed.

Lemma lstrip_head (s : string) :
  lstrip s = "" ∨ ∃ c t, lstrip s = String c t ∧ isspace c = false.
Proof.
  induction s as [|c s IH]; [by left|]. simpl.
  destruct (isspace c) eqn:Hc; [done|]. right. by exists c, s.
Qed.

Lemma rstrip_idem (s : string) : rstrip (rstrip s) = rstrip s.
Proof.
  induction s as [|c s IH]; [done|]. cbn [rstrip].
  destruct (rstrip s) as [|y r] eqn:Hr.
  - destruct (isspace c) eqn:Hc; [done|]. cbn [rstrip]. by rewrite Hc.
  - cbn [rstrip] in *. by rewrite IH.
Qed.

Lemma strip_idem (s : string) : strip (strip s) = strip s.
Proof.
  unfold strip. destruct (lstrip_head s) as [->|(c & t & -> & Hc)]; [done|].
  rewrite rstrip_cons_nonspace by done. cbn [lstrip]. rewrite Hc.
  rewrite <- rstrip_cons_nonspace by done. apply rstrip_idem.
Qed.

End strip_facts.

(** ** First-seen order *)

Section first_seen.

Lemma elem_of_first_seen (l : list string) (x : string) :
  x ∈ first_seen l ↔ x ∈ l.
Proof.
  induction l as [|y l IH]; simpl; [done|].
  rewrite !elem_of_cons, list_elem_of_filter, IH.
  destruct (decide (x = y)); naive_solver.
Qed.

Lemma NoDup_first_seen (l : list string) : NoDup (first_seen l).
Proof.
  induction l as [|y l IH]; simpl; [constructor|].
  apply NoDup_cons. split; [|by apply NoDup_filter].
  rewrite list_elem_of_filter. naive_solver.
Qed.

Lemma foldl_add_new (known xs : list string) :
  foldl add_new known xs
  = known ++ filter (λ x, x ∉ known) (first_seen xs).
Proof.
  revert known. induction xs as [|x xs IH]; intros known; simpl.
  { by rewrite app_nil_r. }
  rewrite IH. unfold add_new. destruct (decide (x ∈ known)) as [Hin|Hnin].
  - rewrite filter_cons_False by naive_solver. f_equal.
    rewrite list_filter_filter. apply list_filter_iff. intros y.
    split; [|naive_solver]. intros Hy. split; [done|]. by intros ->.
  - rewrite filter_cons_True by done. rewrite <- (assoc_L (++)). simpl.
    do 2 f_equal. rewrite list_filter_filter. apply list_filter_iff.
    intros y. rewrite elem_of_app, list_elem_of_singleton. naive_solver.
Qed.

Lemma foldl_add_new_nil (xs : list string) :
  foldl add_new [] xs = first_seen xs.
Proof.
  rewrite foldl_add_new. simpl. induction (first_seen xs) as [|y l IH]; [done|].
  rewrite filter_cons_True by apply not_elem_of_nil. by f_equal.
Qed.

Lemma first_seen_app (pre l : list string) :
  first_seen (pre ++ l)
  = first_seen pre ++ filter (λ x, x ∉ first_seen pre) (first_seen l).
Proof.
  transitivity (foldl add_new (foldl add_new [] pre) l).
  - by rewrite <- foldl_app, foldl_add_new_nil.
  - rewrite foldl_add_new_nil. apply foldl_add_new.
Qed.

Lemma NoDup_split_unique (a a' b b' : list string) (x : string) :
  NoDup (a ++ x :: b) → a ++ x :: b = a' ++ x :: b' → a = a'.
Proof.
  revert a'. induction a as [|y a IH]; intros a' Hnd Heq.
  - destruct a' as [|y' a']; [done|]. simplify_eq/=.
    apply NoDup_cons in Hnd as [Hnin _]. destruct Hnin.
    apply elem_of_app. right. by left.
  - destruct a' as [|y' a']; simplify_eq/=.
    + apply NoDup_cons in Hnd as [Hnin _]. destruct Hnin.
      apply elem_of_app. right. by left.
    + f_equal. apply NoDup_cons in Hnd as [_ Hnd]. eauto.
Qed.

(** The elements emitted before [x] are exactly those that occur in the
    input before the first occurrence of [x]. *)
Lemma first_seen_order (l l1 l2 : list string) (x : string) :
  first_seen l = l1 ++ x :: l2 →
  ∃ pre post, l = pre ++ x :: post ∧ x ∉ pre ∧ ∀ z, z ∈ l1 ↔ z ∈ pre.
Proof.
  intros Heq.
  assert (x ∈ l) as Hx.
  { apply elem_of_first_seen. rewrite Heq. apply elem_of_app. right. by left. }
  apply list_elem_of_split_l in Hx as (pre & post & -> & Hpre).
  exists pre, post. split_and!; [done..|].
  pose proof (NoDup_first_seen (pre ++ x :: post)) as Hnd.
  rewrite Heq in Hnd.
  rewrite first_seen_app in Heq. simpl in Heq.
  rewrite filter_cons_True in Heq by by rewrite elem_of_first_seen.
  symmetry in Heq.
  apply NoDup_split_unique in Heq as ->; [|done].
  intros z. apply elem_of_first_seen.
Qed.

End first_seen.

(** ** Directive and accessor extraction *)

Module ExtractFacts.

Lemma filter_cons_bool {A} (f : A → bool) (x : A) (l : list A) :
  filter (λ y, f y) (x :: l) = if f x then x :: filter (λ y, f y) l
                               else filter (λ y, f y) l.
Proof. rewrite filter_cons. by destruct (f x). Qed.

Lemma filter_cons_negb {A} (f : A → bool) (x : A) (l : list A) :
  filter (λ y, ¬ f y) (x :: l) = if f x then filter (λ y, ¬ f y) l
                                 else x :: filter (λ y, ¬ f y) l.
Proof.
  rewrite filter_cons. destruct (f x); simpl; [|done].
  destruct (decide (¬ True)) as [H|_]; [by destruct H|done].
Qed.

Lemma include_fold (st : include_state) (lines : list string) :
  foldl include_step st lines
  = mk_inc (includes_found st ++ (strip <$> filter (λ l, is_directive l) lines))
           (tmp_after_includes st ++ filter (λ l, ¬ is_directive l) lines).
Proof.
  revert st. induction lines as [|line lines IH]; intros st.
  { simpl. rewrite !app_nil_r. by destruct st. }
  simpl. rewrite IH, filter_cons_bool, filter_cons_negb.
  unfold include_step, is_directive.
  destruct (include_re (strip line)); simpl; by rewrite <- (assoc_L (++)).
Qed.

Lemma extract_includes_spec (lines : list string) :
  includes_found (extract_includes lines)
  = strip <$> filter (λ l, is_directive l) lines
  ∧ tmp_after_includes (extract_includes lines)
    = filter (λ l, ¬ is_directive l) lines.
Proof. unfold extract_includes. by rewrite include_fold. Qed.

Lemma accessor_step_spec (st : accessor_state) (line : string) :
  seen_ok st →
  seen_ok (accessor_step st line)
  ∧ accessors (accessor_step st line)
    = (if is_accessor line then add_new (accessors st) (strip line)
       else accessors st)
  ∧ lines_after_accessors (accessor_step st line)
    = lines_after_accessors st ++ (if is_accessor line then [] else [line]).
Proof.
  intros Hst. unfold accessor_step, is_accessor, add_new.
  destruct (accessor_pattern (strip line)); [|done].
  destruct (decide (strip line ∈ seen_accessors st)) as [Hin|Hnin].
  - rewrite decide_True by by apply Hst. by rewrite app_nil_r.
  - rewrite decide_False by by rewrite <- (Hst _).
    simpl. rewrite app_nil_r. split; [|done]. intros x. simpl.
    rewrite elem_of_union, elem_of_singleton, elem_of_app,
      list_elem_of_singleton, (Hst x). tauto.
Qed.

Lemma accessor_fold (st : accessor_state) (lines : list string) :
  seen_ok st →
  accessors (foldl accessor_step st lines)
  = foldl add_new (accessors st)
          (strip <$> filter (λ l, is_accessor l) lines)
  ∧ lines_after_accessors (foldl accessor_step st lines)
    = lines_after_accessors st ++ filter (λ l, ¬ is_accessor l) lines.
Proof.
  revert st. induction lines as [|line lines IH]; intros st Hst.
  { simpl. by rewrite app_nil_r. }
  destruct (accessor_step_spec st line Hst) as (Hst' & Hacc & Hrest).
  simpl. destruct (IH _ Hst') as [-> ->].
  rewrite Hacc, Hrest, filter_cons_bool, filter_cons_negb.
  destruct (is_accessor line); simpl; by rewrite ?app_nil_r, <- ?(assoc_L (++)).
Qed.

Lemma extract_accessors_spec (lines : list string) :
  accessors (extract_accessors lines)
  = first_seen (strip <$> filter (λ l, is_accessor l) lines)
  ∧ lines_after_accessors (extract_accessors lines)
    = filter (λ l, ¬ is_accessor l) lines.
Proof.
  unfold extract_accessors.
  destruct (accessor_fold (mk_acc [] ∅ []) lines) as [-> ->].
  { intros x. simpl. rewrite elem_of_empty. split; [done|].
    apply not_elem_of_nil. }
  by rewrite foldl_add_new_nil.
Qed.

(** A directive line is never an accessor line: no keyword starts the word
    [include]. *)
Lemma directive_not_accessor (line : string) :
  is_directive line = true → is_accessor line = false.
Proof.
  unfold is_directive, is_accessor, include_re, accessor_pattern.
  destruct (strip_prefix "include" (lstrip (strip line))) as [r|] eqn:Hp;
    [|done].
  intros _. apply strip_prefix_Some in Hp. by rewrite Hp.
Qed.

Lemma accessors_of_content (lines : list string) :
  filter (λ l, is_accessor l) (filter (λ l, ¬ is_directive l) lines)
  = filter (λ l, is_accessor l) lines.
Proof.
  rewrite list_filter_filter. apply list_filter_iff. intros l.
  split; [tauto|]. intros Hacc. split; [done|]. intros Hdir.
  apply Is_true_true in Hdir. apply directive_not_accessor in Hdir.
  rewrite Hdir in Hacc. done.
Qed.

End ExtractFacts.

(** ** The method scanner *)

Module ScanFacts.

Lemma scan_step_wf (st : scan_state) (line : string) :
  scan_wf st → scan_wf (scan_step st line).
Proof.
  destruct st as [d lo im nm cl]. unfold scan_wf, scan_step. simpl.
  destruct im.
  - intros (name & -> & Hne). destruct (def_pattern line);
      (destruct (end_pattern line); simpl; [done|]);
      exists name; (split; [done|]); by destruct cl.
  - intros [-> ->]. destruct (def_pattern line) as [name|]; simpl; [|done].
    by exists name.
Qed.

Lemma scan_wf_foldl (st : scan_state) (lines : list string) :
  scan_wf st → scan_wf (foldl scan_step st lines).
Proof.
  revert st. induction lines as [|line lines IH]; intros st Hwf; [done|].
  simpl. by apply IH, scan_step_wf.
Qed.

(** The scanner of the source files exactly the spans of [occurrences], and
    leaves exactly the lines of [leftovers]. *)
Lemma scan_refines (st : scan_state) (lines : list string) :
  scan_wf st →
  methods_extracted (scan_finish (foldl scan_step st lines))
  = foldl file_span (methods_extracted st) (occurrences (capture_of st) lines)
  ∧ leftover (scan_finish (foldl scan_step st lines))
    = leftover st ++ leftovers (in_method st) lines.
Proof.
  revert st. induction lines as [|line lines IH]; intros st Hwf.
  - destruct st as [d lo im nm cl].
    unfold scan_wf, scan_finish, capture_of in *. simpl in *.
    rewrite app_nil_r. destruct im.
    + destruct Hwf as (name & -> & Hne). by destruct cl.
    + by destruct Hwf as [-> ->].
  - pose proof (scan_step_wf st line Hwf) as Hwf'.
    simpl foldl. destruct (IH _ Hwf') as [-> ->]. clear IH Hwf'.
    destruct st as [d lo im nm cl].
    unfold scan_wf, capture_of, scan_step in *. simpl in *.
    destruct im.
    + destruct Hwf as (name & -> & Hne). simpl.
      assert (cl ++ [line] ≠ []) as Hne' by by destruct cl.
      destruct (def_pattern line); destruct (end_pattern line); simpl;
        try done; destruct (cl ++ [line]); done.
    + destruct Hwf as [-> ->]. simpl.
      destruct (def_pattern line); simpl; [done|].
      by rewrite <- (assoc_L (++)).
Qed.

Lemma scan_methods_spec (lines : list string) :
  methods_extracted (scan_methods lines)
  = foldl file_span [] (occurrences None lines)
  ∧ leftover (scan_methods lines) = leftovers false lines.
Proof. by apply (scan_refines scan_init). Qed.

(** *** The dictionary built from a sequence of filed spans *)

Lemma dict_append_keys (d : method_dict) (k : string) (b : list string) :
  (dict_append d k b).*1 = add_new d.*1 k.
Proof.
  unfold add_new. induction d as [|[k' bs] d IH]; csimpl; [done|].
  destruct (decide (k = k')) as [->|Hne]; csimpl.
  - by rewrite decide_True by by left.
  - rewrite IH. destruct (decide (k ∈ d.*1)) as [Hin|Hnin].
    + by rewrite decide_True by by right.
    + rewrite decide_False; [done|]. rewrite elem_of_cons. tauto.
Qed.

Lemma dict_append_get (d : method_dict) (k : string) (b : list string)
    (k' : string) :
  dict_get (dict_append d k b) k'
  = if decide (k' = k) then dict_get d k ++ [b] else dict_get d k'.
Proof.
  induction d as [|[k0 bs] d IH]; simpl.
  { destruct (decide (k' = k)); done. }
  destruct (decide (k = k0)) as [->|Hne]; simpl.
  - destruct (decide (k' = k0)); done.
  - rewrite IH. destruct (decide (k' = k)) as [->|Hne'].
    + by rewrite !decide_False by done.
    + done.
Qed.

Lemma group_keys (d : method_dict) (log : list (string * list string)) :
  (foldl file_span d log).*1 = foldl add_new d.*1 log.*1.
Proof.
  revert d. induction log as [|o log IH]; intros d; [done|].
  simpl. rewrite IH. unfold file_span. by rewrite dict_append_keys.
Qed.

Lemma group_get (d : method_dict) (log : list (string * list string))
    (k : string) :
  dict_get (foldl file_span d log) k
  = dict_get d k ++ (snd <$> filter (λ o, o.1 = k) log).
Proof.
  revert d. induction log as [|o log IH]; intros d; simpl.
  { by rewrite app_nil_r. }
  rewrite IH. unfold file_span. rewrite dict_append_get, filter_cons.
  destruct (decide (k = o.1)) as [->|Hne].
  - rewrite decide_True by done. simpl. by rewrite <- (assoc_L (++)).
  - by rewrite decide_False by done.
Qed.

Lemma dict_eta (d : method_dict) :
  NoDup d.*1 → d = (λ k, (k, dict_get d k)) <$> d.*1.
Proof.
  induction d as [|[k bs] d IH]; [done|]. csimpl.
  intros [Hnin Hnd]%NoDup_cons. rewrite decide_True by done. f_equal.
  rewrite IH at 1 by done. apply list_fmap_ext. intros i k' Hk'.
  apply list_elem_of_lookup_2 in Hk'.
  rewrite decide_False; [done|]. intros Heq. by rewrite Heq in Hk'.
Qed.

(** The dictionary of a run: one entry per distinct name, in first-seen
    order, holding that name's spans in filing order. *)
Lemma methods_extracted_spec (lines : list string) :
  let occ := occurrences None lines in
  methods_extracted (scan_methods lines)
  = (λ name, (name, snd <$> filter (λ o, o.1 = name) occ))
    <$> first_seen occ.*1.
Proof.
  intros occ. destruct (scan_methods_spec lines) as [Hm _]. fold occ in Hm.
  assert ((methods_extracted (scan_methods lines)).*1 = first_seen occ.*1)
    as Hkeys.
  { rewrite Hm, group_keys. apply foldl_add_new_nil. }
  rewrite (dict_eta (methods_extracted (scan_methods lines))).
  - rewrite Hkeys. apply list_fmap_ext. intros _ k _.
    by rewrite Hm, group_get.
  - rewrite Hkeys. apply NoDup_first_seen.
Qed.

End ScanFacts.

(** ** Merging the definitions of one method *)

Module MergeFacts.
Import ScanFacts.

Lemma occurrences_ok (capturing : option (string * list string))
    (lines : list string) :
  (∀ o, capturing = Some o → span_ok o) →
  Forall span_ok (occurrences capturing lines).
Proof.
  revert capturing. induction lines as [|line lines IH]; intros c Hc; simpl.
  - destruct c as [[name span]|]; [|constructor].
    apply Forall_singleton. by apply Hc.
  - destruct c as [[name span]|].
    + destruct (Hc _ eq_refl) as (opening & rest & Hspan & Hdef).
      simpl in Hspan, Hdef. subst span.
      assert (span_ok (name, (opening :: rest) ++ [line])) as Hok.
      { by exists opening, (rest ++ [line]). }
      destruct (end_pattern line).
      * constructor; [done|]. by apply IH.
      * apply IH. by intros o [= <-].
    + destruct (def_pattern line) as [name|] eqn:Hdef; apply IH; [|done].
      intros o [= <-]. by exists line, [].
Qed.

Lemma unify_blocks_spec (first_block : list string)
    (others : list (list string)) :
  first_block ≠ [] →
  unify_blocks (first_block :: others)
  = Some (Some (join nl (merged_definition (first_block :: others)))).
Proof.
  intros Hne. unfold unify_blocks, merged_definition.
  destruct first_block as [|opening rest]; [done|].
  cbn [head mbind option_bind default].
  destruct (decide (1 < length (opening :: rest))) as [Hlt|Hge].
  - assert ((1 <? length (opening :: rest))%nat = true) as ->
      by by apply Nat.ltb_lt.
    destruct (last (opening :: rest)) as [closing|] eqn:Hlast.
    + cbn [mbind option_bind default]. by rewrite <- !(assoc_L (++)).
    + by apply last_None in Hlast.
  - assert ((1 <? length (opening :: rest))%nat = false) as ->
      by (apply Nat.ltb_ge; lia).
    by rewrite <- !(assoc_L (++)).
Qed.

Lemma merge_methods_spec (d : method_dict) :
  Forall (λ e, ∃ first_block others,
            e.2 = first_block :: others ∧ first_block ≠ []) d →
  merge_methods d = Some ((λ e, join nl (merged_definition e.2)) <$> d).
Proof.
  induction d as [|[k blocks] d IH]; [done|].
  intros [(first_block & others & Hb & Hne) Hd]%Forall_cons. simpl in Hb.
  subst blocks. cbn [merge_methods]. rewrite unify_blocks_spec by done.
  by rewrite (IH Hd).
Qed.

(** Every name of the dictionary has at least one span, and its first span
    opens with a [def] line of that name. *)
Lemma blocks_of_name (lines : list string) (name : string) :
  let occ := occurrences None lines in
  name ∈ occ.*1 →
  ∃ first_block others opening rest,
    snd <$> filter (λ o, o.1 = name) occ = first_block :: others
    ∧ first_block = opening :: rest
    ∧ def_pattern opening = Some name.
Proof.
  intros occ Hin.
  assert (Forall span_ok occ) as Hok by by apply occurrences_ok.
  apply list_elem_of_fmap in Hin as ([n span] & -> & Hin). simpl.
  assert (Forall span_ok (filter (λ o, o.1 = n) occ)) as Hok'.
  { apply Forall_forall. intros o [_ Ho]%list_elem_of_filter.
    by eapply Forall_forall in Hok. }
  assert ((n, span) ∈ filter (λ o, o.1 = n) occ) as Hin'.
  { by apply list_elem_of_filter. }
  destruct (filter (λ o, o.1 = n) occ) as [|o os] eqn:Hf.
  { by apply not_elem_of_nil in Hin'. }
  assert (o.1 = n) as Ho.
  { assert (o ∈ filter (λ o, o.1 = n) occ) as H by (rewrite Hf; by left).
    by apply list_elem_of_filter in H as [? _]. }
  apply Forall_cons in Hok' as [(opening & rest & Hspan & Hdef) _].
  exists o.2, (snd <$> os), opening, rest. by rewrite <- Ho.
Qed.

Lemma merge_methods_scan (lines : list string) :
  let occ := occurrences None lines in
  merge_methods (methods_extracted (scan_methods lines))
  = Some ((λ name,
             join nl (merged_definition
                        (snd <$> filter (λ o, o.1 = name) occ)))
          <$> first_seen occ.*1).
Proof.
  intros occ. rewrite methods_extracted_spec. fold occ.
  rewrite merge_methods_spec.
  - by rewrite <- list_fmap_compose.
  - apply Forall_fmap, Forall_forall. intros name Hname. simpl.
    rewrite elem_of_first_seen in Hname.
    destruct (blocks_of_name lines name Hname)
      as (first_block & others & opening & rest & Hb & -> & _).
    by exists (opening :: rest), others.
Qed.

End MergeFacts.

(** ** Characters of lines: splitting, joining, stripping *)

Section char_facts.

Lemma contains_app (c : ascii) (a b : string) :
  contains c (a +:+ b) = contains c a || contains c b.
Proof.
  induction a as [|x a IH]; [done|].
  rewrite app_String. cbn [contains]. by rewrite IH, orb_assoc.
Qed.

Lemma contains_lstrip (c : ascii) (s : string) :
  contains c s = false → contains c (lstrip s) = false.
Proof.
  induction s as [|x s IH]; [done|]. cbn [contains lstrip].
  intros [Hx Hs]%orb_false_elim. destruct (isspace x); [auto|].
  cbn [contains]. by rewrite Hx, Hs.
Qed.

Lemma contains_rstrip (c : ascii) (s : string) :
  contains c s = false → contains c (rstrip s) = false.
Proof.
  induction s as [|x s IH]; [done|]. cbn [contains rstrip].
  intros [Hx Hs]%orb_false_elim. specialize (IH Hs).
  destruct (rstrip s) as [|y r].
  - destruct (isspace x); [done|]. cbn [contains]. by rewrite Hx.
  - cbn [contains] in *. by rewrite Hx, IH.
Qed.

Lemma contains_strip (c : ascii) (s : string) :
  contains c s = false → contains c (strip s) = false.
Proof. intros H. by apply contains_rstrip, contains_lstrip. Qed.

Lemma contains_join (c : ascii) (sep : string) (l : list string) :
  contains c sep = false →
  Forall (λ x, contains c x = false) l →
  contains c (join sep l) = false.
Proof.
  intros Hsep. induction l as [|x l IH]; [done|].
  intros [Hx Hl]%Forall_cons. destruct l as [|y l]; [done|].
  cbn [join]. rewrite !contains_app, Hx, Hsep. by apply IH.
Qed.

Lemma split_nonempty (sep : ascii) (s : string) : split sep s ≠ [].
Proof.
  induction s as [|x s IH]; [done|]. cbn [split].
  destruct (Ascii.eqb x sep); [done|]. by destruct (split sep s).
Qed.

(** No piece of a split holds the separator. *)
Lemma split_free (sep : ascii) (s : string) :
  Forall (λ x, contains sep x = false) (split sep s).
Proof.
  induction s as [|x s IH]; [by repeat constructor|]. cbn [split].
  destruct (Ascii.eqb x sep) eqn:Hx; [by constructor|].
  pose proof (split_nonempty sep s) as Hne.
  destruct (split sep s) as [|h t]; [done|].
  apply Forall_cons in IH as [Hh Ht]. constructor; [|done].
  cbn [contains]. by rewrite Hx, Hh.
Qed.

Lemma split_contains (c sep : ascii) (s : string) :
  contains c s = false →
  Forall (λ x, contains c x = false) (split sep s).
Proof.
  induction s as [|x s IH]; [by repeat constructor|]. cbn [contains split].
  intros [Hx Hs]%orb_false_elim. specialize (IH Hs).
  destruct (Ascii.eqb x sep); [by constructor|].
  destruct (split sep s) as [|h t].
  - constructor; [|done]. cbn [contains]. by rewrite Hx.
  - apply Forall_cons in IH as [Hh Ht]. constructor; [|done].
    cbn [contains]. by rewrite Hx, Hh.
Qed.

Lemma split_line (sep : ascii) (a : string) :
  contains sep a = false → split sep a = [a].
Proof.
  induction a as [|x a IH]; [done|]. cbn [contains split].
  intros [Hx Ha]%orb_false_elim. by rewrite Hx, (IH Ha).
Qed.

Lemma split_app_sep (sep : ascii) (a b : string) :
  contains sep a = false →
  split sep (a +:+ String sep b) = a :: split sep b.
Proof.
  induction a as [|x a IH].
  - intros _. rewrite app_empty_l. cbn [split]. by rewrite Ascii.eqb_refl.
  - cbn [contains]. intros [Hx Ha]%orb_false_elim.
    rewrite app_String. cbn [split]. by rewrite Hx, (IH Ha).
Qed.

(** Splitting a text that was joined from newline-free lines gives the
    lines back. *)
Lemma split_join (l : list string) :
  l ≠ [] →
  Forall (λ x, contains LF x = false) l →
  split LF (join nl l) = l.
Proof.
  induction l as [|x l IH]; [done|]. intros _ [Hx Hl]%Forall_cons.
  destruct l as [|y l].
  - by apply split_line.
  - cbn [join]. unfold nl. rewrite app_String, app_empty_l.
    rewrite split_app_sep by done. f_equal. by apply IH.
Qed.

Lemma join_cons (sep x : string) (l : list string) :
  l ≠ [] → join sep (x :: l) = x +:+ sep +:+ join sep l.
Proof. by destruct l. Qed.

Lemma join_snoc (sep : string) (l : list string) (x : string) :
  l ≠ [] → join sep (l ++ [x]) = join sep l +:+ sep +:+ x.
Proof.
  induction l as [|y l IH]; [done|]. intros _.
  destruct l as [|z l]; [done|].
  change ((y :: z :: l) ++ [x]) with (y :: ((z :: l) ++ [x])).
  rewrite join_cons by done. rewrite IH by done.
  rewrite (join_cons sep y (z :: l)) by done. by rewrite !app_assoc_s.
Qed.

(** *** Line endings *)

Lemma replace_cr_free (s : string) : contains CR (replace cr nl s) = false.
Proof.
  unfold replace. induction s as [|c s IH]; [done|].
  cbn [replace_from]. unfold startswith.
  change (strip_prefix cr (String c s))
    with (if Ascii.eqb CR c then Some s else None).
  destruct (Ascii.eqb_spec CR c) as [<-|Hne].
  - change (String.length cr - 1) with 0.
    rewrite contains_app. by rewrite IH.
  - cbn [contains]. rewrite IH. rewrite orb_false_r.
    apply Ascii.eqb_neq. congruence.
Qed.

Lemma replace_cr_id (s : string) :
  contains CR s = false → replace cr nl s = s.
Proof.
  unfold replace. induction s as [|c s IH]; [done|].
  cbn [contains replace_from]. intros [Hc Hs]%orb_false_elim.
  unfold startswith.
  change (strip_prefix cr (String c s))
    with (if Ascii.eqb CR c then Some s else None).
  rewrite Ascii.eqb_sym, Hc. by rewrite (IH Hs).
Qed.

Lemma replace_crlf_id (s : string) :
  contains CR s = false → replace (cr +:+ nl) nl s = s.
Proof.
  unfold replace. induction s as [|c s IH]; [done|].
  cbn [contains replace_from]. intros [Hc Hs]%orb_false_elim.
  unfold startswith.
  change (strip_prefix (cr +:+ nl) (String c s))
    with (if Ascii.eqb CR c then strip_prefix nl s else None).
  rewrite Ascii.eqb_sym, Hc. by rewrite (IH Hs).
Qed.

Lemma normalize_cr_free (s : string) : contains CR (normalize s) = false.
Proof. apply replace_cr_free. Qed.

Lemma normalize_cr_free_id (s : string) :
  contains CR s = false → normalize s = s.
Proof.
  intros H. unfold normalize. rewrite replace_crlf_id by done.
  by apply replace_cr_id.
Qed.

Lemma normalize_idem (s : string) : normalize (normalize s) = normalize s.
Proof.
  unfold normalize at 1.
  rewrite replace_crlf_id by apply normalize_cr_free.
  apply replace_cr_id, normalize_cr_free.
Qed.

End char_facts.

(** ** Block extraction *)

Module FlattenFacts.
Import ScanFacts MergeFacts.

(** A line is copied into [flattened_lines] only when its stripped form is
    not [end]; whatever holds of all such input lines holds of the result. *)
Lemma flatten_fold_Forall (Q : string → Prop) (st : flat_state)
    (lines : list string) :
  Forall Q (flattened_lines st) →
  Forall (λ l, strip l ≠ "end" → Q l) lines →
  Forall Q (flattened_lines (foldl flatten_step st lines)).
Proof.
  revert st. induction lines as [|line lines IH]; intros st Hst Hl; [done|].
  apply Forall_cons in Hl as [Hline Hl]. simpl. apply IH; [|done].
  unfold flatten_step.
  destruct (startswith (strip line) "class "); [done|].
  destruct (String.eqb_spec (strip line) "end") as [Heq|Hne].
  - by destruct (0 <? in_class st)%nat.
  - destruct (0 <? in_class st)%nat; [|done]. simpl.
    apply Forall_app. split; [done|]. apply Forall_singleton. auto.
Qed.

Lemma flatten_classes_Forall (Q : string → Prop) (lines : list string) :
  Forall (λ l, strip l ≠ "end" → Q l) lines →
  Forall Q (flatten_classes lines).
Proof. intros H. by apply flatten_fold_Forall. Qed.

(** No line that closes a method survives block extraction. *)
Lemma flatten_classes_no_end (lines : list string) :
  Forall (λ l, end_pattern l = false) (flatten_classes lines).
Proof.
  apply flatten_classes_Forall, Forall_forall. intros l _ Hne.
  destruct (end_pattern l) eqn:He; [|done]. by apply end_pattern_strip in He.
Qed.

(** Without any [class] line nothing is retained. *)
Lemma flatten_without_marker (lines : list string) :
  Forall (λ l, startswith (strip l) "class " = false) lines →
  flatten_classes lines = [].
Proof.
  unfold flatten_classes. generalize (eq_refl (mk_flat 0 [])).
  generalize (mk_flat 0 []) at 1 3 as st. intros st -> Hl.
  induction lines as [|line lines IH]; [done|].
  apply Forall_cons in Hl as [Hline Hl]. simpl.
  unfold flatten_step at 2. rewrite Hline. simpl.
  destruct (String.eqb (strip line) "end"); by apply IH.
Qed.

(** *** Scanning a stream without closing lines *)

Lemma occurrences_open (name : string) (span lines : list string) :
  Forall (λ l, end_pattern l = false) lines →
  occurrences (Some (name, span)) lines = [(name, span ++ lines)]
  ∧ leftovers true lines = [].
Proof.
  revert span. induction lines as [|line lines IH]; intros span Hl; simpl.
  { by rewrite app_nil_r. }
  apply Forall_cons in Hl as [-> Hl]. simpl.
  destruct (IH (span ++ [line]) Hl) as [-> ->].
  by rewrite <- (assoc_L (++)).
Qed.

Lemma scan_without_end (lines : list string) :
  Forall (λ l, end_pattern l = false) lines →
  (occurrences None lines = [] ∧ leftovers false lines = lines)
  ∨ ∃ name opening body,
      lines = leftovers false lines ++ opening :: body
      ∧ occurrences None lines = [(name, opening :: body)].
Proof.
  induction lines as [|line lines IH]; intros Hl; [by left|].
  apply Forall_cons in Hl as [Hline Hl]. simpl.
  destruct (def_pattern line) as [name|].
  - right. exists name, line, lines.
    by destruct (occurrences_open name [line] lines Hl) as [-> ->].
  - destruct (IH Hl) as [[-> ->]|(name & opening & body & Heq & ->)].
    + by left.
    + right. exists name, opening, body. split; [|done].
      simpl. by f_equal.
Qed.

(** One span is merged into itself; a span that is only its opening line
    gets a closing [end]. *)
Lemma inner_last (opening : string) (xs : list string) (x : string) :
  inner (opening :: xs ++ [x])
  ++ [default "" (last (opening :: xs ++ [x]))] = xs ++ [x].
Proof.
  unfold inner. rewrite app_comm_cons, last_snoc, length_app.
  replace (length (opening :: xs) + length [x] - 1)
    with (length (opening :: xs)) by (simpl; lia).
  rewrite take_app_length. by rewrite drop_0 || done.
Qed.

Lemma merged_definition_single (opening : string) (body : list string) :
  merged_definition [opening :: body]
  = match body with
    | [] => [opening; "end"]
    | _ :: _ => opening :: body
    end.
Proof.
  destruct body as [|l body]; [done|].
  assert (∃ xs x, l :: body = xs ++ [x]) as (xs & x & ->).
  { generalize (l :: body) (@nil_cons _ l body).
    intros k Hk. induction k as [|x xs _] using rev_ind; [done|]. eauto. }
  unfold merged_definition.
  rewrite decide_True by (simpl; rewrite length_app; simpl; lia).
  change (concat _) with (@nil string). rewrite app_nil_l.
  change ([default "" (head (opening :: xs ++ [x]))]) with [opening].
  by rewrite inner_last.
Qed.

End FlattenFacts.

(** ** Properties of lines carried through the pipeline *)

Module PipelineFacts.
Import ExtractFacts ScanFacts MergeFacts FlattenFacts.

Lemma method_stream_spec (lines : list string) :
  method_stream lines
  = filter (λ l, ¬ is_accessor l)
      (filter (λ l, ¬ is_directive l) (block_content lines)).
Proof.
  unfold method_stream.
  destruct (extract_includes_spec (block_content lines)) as [_ ->].
  by destruct (extract_accessors_spec
                 (filter (λ l, ¬ is_directive l) (block_content lines)))
    as [_ ->].
Qed.

Lemma analyse_accessors (lines : list string) :
  p_accessors (analyse_lines lines)
  = first_seen (strip <$> filter (λ l, is_accessor l) (block_content lines)).
Proof.
  unfold analyse_lines. cbn [p_accessors].
  destruct (extract_includes_spec (block_content lines)) as [_ ->].
  destruct (extract_accessors_spec
              (filter (λ l, ¬ is_directive l) (block_content lines)))
    as [-> _].
  by rewrite accessors_of_content.
Qed.

Lemma analyse_directive (lines : list string) :
  found_include_pageobject (analyse_lines lines) = true
  ↔ ∃ l, l ∈ block_content lines ∧ is_directive l = true.
Proof.
  unfold analyse_lines. cbn [found_include_pageobject].
  destruct (extract_includes_spec (block_content lines)) as [-> _].
  rewrite bool_decide_eq_true, length_fmap. split.
  - destruct (filter _ _) as [|l ls] eqn:Hf; simpl; [lia|]. intros _.
    assert (l ∈ filter (λ l, is_directive l) (block_content lines)) as Hl
      by (rewrite Hf; by left).
    apply list_elem_of_filter in Hl as [Hd Hl]. exists l.
    split; [done|]. by apply Is_true_true.
  - intros (l & Hl & Hd).
    assert (l ∈ filter (λ l, is_directive l) (block_content lines)) as Hin.
    { apply list_elem_of_filter. split; [by apply Is_true_true|done]. }
    destruct (filter _ _); [by apply not_elem_of_nil in Hin|simpl; lia].
Qed.

Lemma analyse_methods (lines : list string) :
  p_methods (analyse_lines lines)
  = methods_extracted (scan_methods (method_stream lines)).
Proof. done. Qed.

Lemma analyse_leftover (lines : list string) :
  p_leftover (analyse_lines lines) = leftovers false (method_stream lines).
Proof.
  change (p_leftover (analyse_lines lines))
    with (leftover (scan_methods (method_stream lines))).
  by destruct (scan_methods_spec (method_stream lines)) as [_ ->].
Qed.

Lemma merge_methods_total (lines : list string) :
  is_Some (merge_methods (p_methods (analyse_lines lines))).
Proof. rewrite analyse_methods, merge_methods_scan. eauto. Qed.

Lemma Forall_filter_keep {A} (Q P : A → Prop) `{!∀ x, Decision (P x)}
    (l : list A) :
  Forall Q l → Forall Q (filter P l).
Proof.
  rewrite !Forall_forall. intros HQ x [_ Hx]%list_elem_of_filter. auto.
Qed.

Section line_property.
Variable Q : string → Prop.

Lemma block_content_Forall (lines : list string) :
  Forall Q lines → Forall Q (block_content lines).
Proof.
  intros H. unfold block_content.
  assert (Forall Q (flatten_classes lines)) as Hf.
  { apply flatten_classes_Forall. eapply Forall_impl; [done|]. auto. }
  by destruct (flatten_classes lines).
Qed.

Lemma method_stream_Forall (lines : list string) :
  Forall Q lines → Forall Q (method_stream lines).
Proof.
  intros H. rewrite method_stream_spec.
  by apply Forall_filter_keep, Forall_filter_keep, block_content_Forall.
Qed.

Lemma occurrences_Forall (capturing : option (string * list string))
    (lines : list string) :
  (∀ o, capturing = Some o → Forall Q o.2) →
  Forall Q lines →
  Forall (λ o, Forall Q o.2) (occurrences capturing lines).
Proof.
  revert capturing. induction lines as [|line lines IH]; intros c Hc Hl.
  - simpl. destruct c as [[name span]|]; [|constructor].
    apply Forall_singleton. by apply (Hc (name, span)).
  - apply Forall_cons in Hl as [Hline Hl]. simpl.
    destruct c as [[name span]|].
    + assert (Forall Q (span ++ [line])) as Hspan.
      { apply Forall_app. split; [by apply (Hc (name, span))|].
        by apply Forall_singleton. }
      destruct (end_pattern line).
      * constructor; [done|]. by apply IH.
      * apply IH; [|done]. by intros o [= <-].
    + destruct (def_pattern line) as [name|]; apply IH; try done.
      intros o [= <-]. by apply Forall_singleton.
Qed.

Lemma leftovers_Forall (capturing : bool) (lines : list string) :
  Forall Q lines → Forall Q (leftovers capturing lines).
Proof.
  revert capturing. induction lines as [|line lines IH]; intros c Hl; [done|].
  apply Forall_cons in Hl as [Hline Hl]. simpl.
  destruct c; [by apply IH|].
  destruct (def_pattern line); [by apply IH|]. constructor; auto.
Qed.

Hypothesis Q_empty : Q "".
Hypothesis Q_end : Q "end".
Hypothesis Q_separator : Q separator.

Lemma inner_Forall (b : list string) : Forall Q b → Forall Q (inner b).
Proof. intros H. by apply Forall_drop, Forall_take. Qed.

Lemma merged_definition_Forall (blocks : list (list string)) :
  Forall (Forall Q) blocks → Forall Q (merged_definition blocks).
Proof.
  destruct blocks as [|first_block others]; [done|].
  intros [Hfirst Hothers]%Forall_cons. unfold merged_definition.
  rewrite !Forall_app. split_and!.
  - apply Forall_singleton. destruct first_block; [done|].
    by apply Forall_cons in Hfirst as [? _].
  - by apply inner_Forall.
  - apply Forall_concat, Forall_fmap. eapply Forall_impl; [done|].
    intros b Hb. simpl. constructor; [done|]. by apply inner_Forall.
  - apply Forall_singleton. case_decide; [|done].
    destruct (last first_block) as [x|] eqn:Hlast; [|done].
    apply last_Some_elem_of in Hlast. simpl.
    by eapply Forall_forall in Hfirst.
Qed.

(** The merged definitions of a run are built from lines of the input,
    the separator and [end]. *)
Lemma merged_lines_Forall (lines : list string) (merged : list string) :
  Forall Q lines →
  merge_methods (p_methods (analyse_lines lines)) = Some merged →
  ∃ defs, merged = join nl <$> defs ∧ Forall (Forall Q) defs
          ∧ Forall (λ d, d ≠ []) defs.
Proof.
  intros Hl. rewrite analyse_methods, merge_methods_scan. intros [= <-].
  set (occ := occurrences None (method_stream lines)).
  exists ((λ name, merged_definition (snd <$> filter (λ o, o.1 = name) occ))
          <$> first_seen occ.*1).
  split_and!.
  - by rewrite <- list_fmap_compose.
  - apply Forall_fmap, Forall_forall. intros name _. simpl.
    apply merged_definition_Forall, Forall_fmap, Forall_filter_keep.
    apply occurrences_Forall; [done|]. by apply method_stream_Forall.
  - apply Forall_fmap, Forall_forall. intros name Hname. simpl.
    rewrite elem_of_first_seen in Hname. subst occ.
    destruct (blocks_of_name _ name Hname)
      as (first_block & others & opening & rest & Hb & -> & _).
    by rewrite Hb.
Qed.

End line_property.
End PipelineFacts.

(** ** Assembly *)

Module AssemblyFacts.
Import ExtractFacts ScanFacts MergeFacts FlattenFacts PipelineFacts.

Lemma final_lines_body (site_name : string) (p : parts)
    (merged_methods : list string) :
  final_lines site_name p merged_methods
  = ("class " +:+ site_name) :: body_lines p merged_methods ++ ["end"].
Proof.
  unfold final_lines, body_lines, header_section. simpl. do 2 f_equal.
  rewrite <- !(assoc_L (++)). do 2 f_equal. simpl. f_equal.
  by rewrite <- (assoc_L (++)).
Qed.

Lemma final_text (site_name : string) (p : parts)
    (merged_methods : list string) :
  join nl (final_lines site_name p merged_methods)
  = "class " +:+ site_name +:+ nl
    +:+ join nl (body_lines p merged_methods) +:+ nl +:+ "end".
Proof.
  rewrite final_lines_body.
  rewrite join_cons by (unfold body_lines; done).
  rewrite join_snoc by (unfold body_lines; done).
  by rewrite !app_assoc_s.
Qed.

Section body_property.
Variable Q : string → Prop.
Hypothesis Q_empty : Q "".
Hypothesis Q_end : Q "end".
Hypothesis Q_separator : Q separator.
Hypothesis Q_directive : Q "  include PageObject".
Hypothesis Q_header : Q leftover_header.
Hypothesis Q_strip : ∀ x, Q x → Q (strip x).
Hypothesis Q_indent : ∀ x, Q x → Q (indent x).
Hypothesis Q_split_join : ∀ d, Forall Q d → Forall Q (split LF (join nl d)).

Lemma method_section_Forall (defs : list (list string)) :
  Forall (Forall Q) defs →
  Forall Q (method_section (join nl <$> defs)).
Proof.
  intros H. unfold method_section. apply Forall_concat.
  rewrite <- list_fmap_compose. apply Forall_fmap.
  eapply Forall_impl; [done|]. intros d Hd. simpl.
  apply Forall_app. split; [|by apply Forall_singleton].
  apply Forall_fmap. eapply Forall_impl; [by apply Q_split_join|]. auto.
Qed.

Lemma body_lines_Forall (lines : list string) (merged : list string) :
  Forall Q lines →
  merge_methods (p_methods (analyse_lines lines)) = Some merged →
  Forall Q (body_lines (analyse_lines lines) merged).
Proof.
  intros Hl Hm. unfold body_lines. constructor; [done|].
  rewrite !Forall_app. split_and!.
  - unfold directive_section. destruct (found_include_pageobject _);
      by repeat constructor.
  - rewrite analyse_accessors. unfold accessor_section.
    apply Forall_fmap, Forall_forall. intros x Hx. simpl. apply Q_indent.
    rewrite elem_of_first_seen in Hx.
    apply list_elem_of_fmap in Hx as (l & -> & Hin).
    apply list_elem_of_filter in Hin as [_ Hin]. apply Q_strip.
    pose proof (block_content_Forall Q lines Hl) as Hc.
    by eapply Forall_forall in Hc.
  - by apply Forall_singleton.
  - destruct (merged_lines_Forall Q Q_empty Q_end Q_separator lines merged
                Hl Hm) as (defs & -> & Hdefs & _).
    by apply method_section_Forall.
  - rewrite analyse_leftover. unfold leftover_section, leftover_stripped.
    destruct (filter _ _) as [|ln lns] eqn:Hf; [done|].
    constructor; [done|]. apply Forall_fmap, Forall_forall.
    intros x Hx. simpl. apply Q_indent, Q_strip.
    assert (x ∈ filter (λ ln, truthy (strip ln))
                  (leftovers false (method_stream lines))) as Hin
      by by rewrite Hf.
    apply list_elem_of_filter in Hin as [_ Hin].
    pose proof (leftovers_Forall Q false _ (method_stream_Forall Q lines Hl))
      as Hlo.
    by eapply Forall_forall in Hlo.
Qed.

End body_property.
End AssemblyFacts.

(** * The claims *)

Import ExtractFacts ScanFacts MergeFacts FlattenFacts PipelineFacts AssemblyFacts.

(** ** C3: what closes a capture *)

(** C3, as stated, fails: after [def go] the indented line [  end] closes
    the capture and files the span, it is not kept as an inner line. *)
Lemma capture_closed_by_indented_end :
  let st := scan_step scan_init "def go" in
  in_method st = true
  ∧ scan_step st "  end"
    = mk_scan [("go", [["def go"; "  end"]])] [] false None []
  ∧ ¬ closes_only_on_bare_end.
Proof.
  split_and!; [done..|]. intros H.
  by specialize (H (scan_step scan_init "def go") "  end" eq_refl eq_refl).
Qed.

(** C3, amended.  While a capture of [name] is in progress, a line closes
    it exactly when it is [end] between optional runs of whitespace
    (indented or not); the closing line is appended to the span, the span
    is filed under [name] and the scanner leaves the capture.  Every other
    line is appended to the span and the capture stays open. *)
Theorem capture_closing (st : scan_state) (name line : string) :
  in_method st = true →
  current_method_name st = Some name →
  (end_pattern line = true ↔
     ∃ ws1 ws2, all_space ws1 = true ∧ all_space ws2 = true
                ∧ line = ws1 +:+ "end" +:+ ws2)
  ∧ (end_pattern line = true →
     scan_step st line
     = mk_scan (dict_append (methods_extracted st) name
                            (current_method_lines st ++ [line]))
               (leftover st) false None [])
  ∧ (end_pattern line = false →
     scan_step st line
     = mk_scan (methods_extracted st) (leftover st) true (Some name)
               (current_method_lines st ++ [line])).
Proof.
  intros Hin Hname. split; [apply end_pattern_shape|].
  destruct st as [d lo im nm cl]. simpl in *. subst im nm.
  unfold scan_step. simpl.
  split; intros ->; destruct (def_pattern line); simpl; try done;
    by destruct cl.
Qed.

Lemma capture_closing_witness :
  scan_step (scan_step scan_init "def go") "  end"
  = mk_scan [("go", [["def go"; "  end"]])] [] false None [].
Proof.
  apply (capture_closing (scan_step scan_init "def go") "go" "  end");
    reflexivity.
Defined.

(** ** C4: the merged definition *)






(** ** C7: accessors *)

Lemma strip_indent_strip (line : string) :
  strip (indent (strip line)) = strip line.
Proof.
  unfold indent. unfold strip at 1.
  rewrite (lstrip_all_space_app "  ") by done. apply strip_idem.
Qed.

(** C7.  The accessor list of a run is the first-seen-order deduplication
    of the trimmed accessor lines of the block content: no element occurs
    twice, every trimmed accessor line occurs, the elements emitted before
    an accessor are exactly those seen in the content before its first
    occurrence, and the emitted accessor lines, trimmed again, are this
    list. *)
Theorem accessor_dedup (combined_code : string) :
  let content := block_content (code_lines combined_code) in
  let trimmed := strip <$> filter (λ l, is_accessor l) content in
  let accs := p_accessors (analyse combined_code) in
  accs = first_seen trimmed
  ∧ NoDup accs
  ∧ (∀ x, x ∈ accs ↔ x ∈ trimmed)
  ∧ (∀ l1 x l2, accs = l1 ++ x :: l2 →
       ∃ pre post, trimmed = pre ++ x :: post ∧ x ∉ pre
                   ∧ ∀ z, z ∈ l1 ↔ z ∈ pre)
  ∧ strip <$> accessor_section accs = accs.
Proof.
  intros content trimmed accs.
  assert (accs = first_seen trimmed) as Haccs by apply analyse_accessors.
  rewrite Haccs. split_and!.
  - done.
  - apply NoDup_first_seen.
  - apply elem_of_first_seen.
  - intros l1 x l2. apply first_seen_order.
  - unfold accessor_section. rewrite <- list_fmap_compose.
    rewrite <- (list_fmap_id (first_seen trimmed)) at 2.
    apply list_fmap_ext. intros i x Hx. simpl.
    apply list_elem_of_lookup_2 in Hx. rewrite elem_of_first_seen in Hx.
    apply list_elem_of_fmap in Hx as (l & -> & _).
    apply strip_indent_strip.
Qed.

Lemma accessor_dedup_witness :
  ∃ pre post,
    strip <$> filter (λ l, is_accessor l)
                (block_content
                   (code_lines (join nl ["link(:a)"; " link(:b) "; "link(:a)"])))
    = pre ++ "link(:b)" :: post
    ∧ "link(:b)" ∉ pre ∧ ∀ z, z ∈ ["link(:a)"] ↔ z ∈ pre.
Proof.
  apply (accessor_dedup (join nl ["link(:a)"; " link(:b) "; "link(:a)"]))
    with (l2 := []).
  reflexivity.
Defined.

(** ** C9: totality *)

(** C9.  For every input and output name [beautify_ruby_class] returns a
    text: the opening line naming the class, a body, and the closing
    [end]; no step raises.  When the input stream of the scanner ends
    inside a capture, the lines captured so far are filed under the
    capture's name. *)
Theorem merge_total (combined_code site_name : string) :
  (∃ body,
     beautify_ruby_class combined_code site_name
     = Some ("class " +:+ site_name +:+ nl +:+ body +:+ nl +:+ "end"))
  ∧ ∀ lines,
      let st := foldl scan_step scan_init lines in
      in_method st = true →
      ∃ name,
        current_method_name st = Some name
        ∧ current_method_lines st ≠ []
        ∧ methods_extracted (scan_methods lines)
          = dict_append (methods_extracted st) name (current_method_lines st).
Proof.
  split.
  - unfold beautify_ruby_class.
    destruct (merge_methods_total (code_lines combined_code)) as [merged Hm].
    unfold analyse. rewrite Hm. cbn [mbind option_bind].
    eexists. by rewrite final_text.
  - intros lines st Hin.
    pose proof (scan_wf_foldl scan_init lines (conj eq_refl eq_refl)) as Hwf.
    fold st in Hwf. unfold scan_wf in Hwf. rewrite Hin in Hwf.
    destruct Hwf as (name & Hname & Hne). exists name. split_and!; [done..|].
    unfold scan_methods, scan_finish. fold st. rewrite Hin.
    destruct (current_method_lines st) as [|l ls] eqn:Hl; [done|].
    unfold flush_method. rewrite Hname, Hl. done.
Qed.

Lemma merge_total_witness :
  ∃ name,
    current_method_name (foldl scan_step scan_init ["x"; "def go"; "click"])
    = Some name
    ∧ current_method_lines (foldl scan_step scan_init ["x"; "def go"; "click"])
      ≠ []
    ∧ methods_extracted (scan_methods ["x"; "def go"; "click"])
      = dict_append
          (methods_extracted
             (foldl scan_step scan_init ["x"; "def go"; "click"]))
          name
          (current_method_lines
             (foldl scan_step scan_init ["x"; "def go"; "click"])).
Proof.
  apply (proj2 (merge_total "" "") ["x"; "def go"; "click"]). reflexivity.
Defined.

(** ** C10: line endings *)

(** C10.  The result for an input equals the result for the same input
    with every carriage-return/line-feed pair and every remaining carriage
    return replaced by a line feed, and after the caller's class name the
    output holds no carriage return. *)
Theorem line_ending_insensitive (combined_code site_name : string) :
  beautify_ruby_class combined_code site_name
  = beautify_ruby_class (normalize combined_code) site_name
  ∧ ∃ rest,
      beautify_ruby_class combined_code site_name
      = Some ("class " +:+ site_name +:+ rest)
      ∧ contains CR rest = false.
Proof.
  split.
  - unfold beautify_ruby_class, analyse, code_lines.
    by rewrite normalize_idem.
  - unfold beautify_ruby_class.
    destruct (merge_methods_total (code_lines combined_code)) as [merged Hm].
    unfold analyse. rewrite Hm. cbn [mbind option_bind].
    rewrite final_text. eexists. split; [done|].
    rewrite !contains_app. cbn [orb].
    assert (contains CR
              (join nl (body_lines (analyse_lines (code_lines combined_code))
                                   merged)) = false) as ->; [|done].
    apply contains_join; [done|].
    apply (body_lines_Forall (λ x, contains CR x = false)); try done.
    + apply contains_strip.
    + intros d Hd. apply split_contains. by apply contains_join.
    + apply split_contains, normalize_cr_free.
Qed.

(** ** C6: no retained line is lost *)

Lemma block_content_retained (lines : list string) :
  flatten_classes lines ≠ [] → block_content lines = flatten_classes lines.
Proof. unfold block_content. by destruct (flatten_classes lines). Qed.









(** Outside the scope of C6: when no block is recognized and the whole
    input is the content, closing lines do reach the scanner, a name can
    have several spans, and the first and last line of every later span are
    left out of the merged definition. *)
Example fallback_later_span_trimmed :
  beautify_ruby_class
    (join nl ["def go"; "a"; "end"; "def go"; "b"; "c"]) "A"
  = Some (join nl ["class A"; ""; ""; "  def go"; "  a"; indent separator;
                   "  b"; "  end"; ""; "end"]).
Proof. by vm_compute. Qed.

(** ** C5, C1 and C2: block extraction on concrete inputs *)

(** C5.  In the scenario, with the block opened by [class P] and the
    procedure by [def go], the [end] that closes the procedure is taken as
    the end of the block: the method scanner never sees it, the span of
    [go] is [def go; click], and the merged definition has an empty body
    with [click] in the place of the closing line.  The directive and the
    accessor are each emitted once.  With the markers spelled
    [begin-block] and [begin-procedure] no line is a marker and all but the
    directive and the accessor are leftovers. *)
Lemma scenario_end_taken_by_block :
  let code := join nl ["class P"; "include PageObject"; "text_field(:a)";
                       "text_field(:a)"; "def go"; "click"; "end"; "end"] in
  flatten_classes (code_lines code)
  = ["include PageObject"; "text_field(:a)"; "text_field(:a)"; "def go";
     "click"]
  ∧ p_methods (analyse code) = [("go", [["def go"; "click"]])]
  ∧ inner ["def go"; "click"] = []
  ∧ beautify_ruby_class code "Login"
    = Some (join nl ["class Login"; ""; "  include PageObject"; "";
                     "  text_field(:a)"; ""; "  def go"; "  click"; "";
                     "end"])
  ∧ beautify_ruby_class
      (join nl ["begin-block P"; "include PageObject"; "text_field(:a)";
                "text_field(:a)"; "begin-procedure go"; "click"; "end"; "end"])
      "Login"
    = Some (join nl ["class Login"; ""; "  include PageObject"; "";
                     "  text_field(:a)"; ""; leftover_header;
                     "  begin-block P"; "  begin-procedure go"; "  click";
                     "  end"; "  end"; "end"]).
Proof. by vm_compute. Qed.

(** C1.  Merging a text with the two methods [a] and [b] gives a class
    with both; merging that output again under the same name keeps only
    [a], because the [end] of [a] closes the class and the lines of [b]
    are outside every block. *)
Lemma remerge_drops_method :
  let code := join nl ["def a"; "foo"; "end"; "def b"; "bar"; "end"] in
  let out := join nl ["class A"; ""; ""; "  def a"; "  foo"; "  end"; "";
                      "  def b"; "  bar"; "  end"; ""; "end"] in
  beautify_ruby_class code "A" = Some out
  ∧ (p_methods (analyse code)).*1 = ["a"; "b"]
  ∧ flatten_classes (code_lines out) = [""; ""; "  def a"; "  foo"]
  ∧ (p_methods (analyse out)).*1 = ["a"]
  ∧ beautify_ruby_class out "A"
    = Some (join nl ["class A"; ""; ""; "    def a"; "    foo"; ""; "end"]).
Proof. by vm_compute. Qed.

(** Without any [class] line nothing is retained and the whole input is the
    block content. *)
Lemma fallback_without_marker (lines : list string) :
  Forall (λ l, startswith (strip l) "class " = false) lines →
  block_content lines = lines.
Proof.
  intros Hl. unfold block_content. by rewrite flatten_without_marker.
Qed.

(** C2.  An input without any [class] line is taken whole, as in the
    scenario.  The fallback is taken on empty [flattened_lines], though,
    not on the absence of a [class] line: a block that retains no line
    sends the whole input, its [class] and [end] lines and the lines
    outside the block included, down the pipeline. *)
Lemma fallback_after_empty_block :
  beautify_ruby_class (join nl ["include PageObject"; "link(:x)"]) "A"
  = Some (join nl ["class A"; ""; "  include PageObject"; "";
                   "  link(:x)"; ""; "end"])
  ∧ let code := join nl ["class P"; "end"; "link(:x)"] in
    startswith (strip "class P") "class " = true
    ∧ flatten_classes (code_lines code) = []
    ∧ block_content (code_lines code) = ["class P"; "end"; "link(:x)"]
    ∧ beautify_ruby_class code "A"
      = Some (join nl ["class A"; ""; "  link(:x)"; ""; leftover_header;
                       "  class P"; "  end"; "end"]).
Proof. by vm_compute. Qed.

(** * Further properties *)

(** ** Units and stripping *)

Section token_facts.

Lemma split_ws_all_space (s : string) :
  all_space s = true → split_ws s = [].
Proof.
  induction s as [|c s IH]; [done|]. cbn [all_space split_ws].
  intros [-> Hs]%andb_prop. auto.
Qed.

(** A word character in front either starts a new word or extends the first
    word of the rest. *)
Lemma split_ws_cons_word (c : ascii) (s : string) :
  isspace c = false →
  split_ws (String c s)
  = if starts_word s
    then match split_ws s with
         | h :: t => String c h :: t
         | [] => [String c ""]
         end
    else String c "" :: split_ws s.
Proof.
  intros Hc. cbn [split_ws]. rewrite Hc. destruct s as [|c' s']; [done|].
  cbn [starts_word]. by destruct (isspace c').
Qed.

Lemma split_ws_starts_word (s : string) :
  starts_word s = true → split_ws s ≠ [].
Proof.
  destruct s as [|c s]; [done|]. cbn [starts_word].
  intros Hc%negb_true_iff. by apply split_ws_head_nonspace.
Qed.

Lemma split_ws_lstrip (s : string) : split_ws (lstrip s) = split_ws s.
Proof.
  induction s as [|c s IH]; [done|]. cbn [lstrip].
  destruct (isspace c) eqn:Hc; [|done]. cbn [split_ws]. by rewrite Hc.
Qed.

Lemma starts_word_rstrip (s : string) :
  starts_word (rstrip s) = starts_word s.
Proof.
  destruct s as [|c s]; [done|]. cbn [rstrip starts_word].
  destruct (rstrip s); destruct (isspace c) eqn:Hc;
    cbn [starts_word]; by rewrite ?Hc.
Qed.

Lemma split_ws_rstrip (s : string) : split_ws (rstrip s) = split_ws s.
Proof.
  induction s as [|c s IH]; [done|].
  destruct (isspace c) eqn:Hc.
  - cbn [rstrip]. destruct (rstrip s) as [|y r] eqn:Hr.
    + rewrite Hc. cbn [split_ws]. rewrite Hc.
      by rewrite split_ws_all_space by by apply rstrip_empty_iff.
    + cbn [split_ws]. rewrite Hc. rewrite <- IH. cbn [split_ws]. done.
  - rewrite rstrip_cons_nonspace by done.
    rewrite !split_ws_cons_word by done.
    by rewrite starts_word_rstrip, IH.
Qed.

Lemma split_ws_strip (s : string) : split_ws (strip s) = split_ws s.
Proof. unfold strip. by rewrite split_ws_rstrip, split_ws_lstrip. Qed.

Lemma count_tokens_strip (s : string) :
  count_tokens (strip s) = count_tokens s.
Proof. unfold count_tokens. by rewrite split_ws_strip. Qed.

Lemma count_tokens_nonneg (s : string) : (0 ≤ count_tokens s)%Z.
Proof. unfold count_tokens. lia. Qed.

Lemma lstrip_empty_iff (s : string) : lstrip s = "" ↔ all_space s = true.
Proof.
  induction s as [|c s IH]; [done|]. cbn [lstrip all_space].
  destruct (isspace c); [done|]. split; done.
Qed.

Lemma split_ws_empty_iff (s : string) : split_ws s = [] ↔ all_space s = true.
Proof.
  split; [|apply split_ws_all_space].
  induction s as [|c s IH]; [done|]. cbn [all_space].
  destruct (isspace c) eqn:Hc.
  - cbn [split_ws]. rewrite Hc. auto.
  - intros H. by apply split_ws_head_nonspace in H.
Qed.

Lemma strip_empty_iff (s : string) : strip s = "" ↔ all_space s = true.
Proof.
  unfold strip. rewrite rstrip_empty_iff. split.
  - intros H. apply split_ws_empty_iff. rewrite <- split_ws_lstrip.
    by apply split_ws_all_space.
  - intros H. apply lstrip_empty_iff in H. by rewrite H.
Qed.

End token_facts.

(** X1.  [count_tokens] does not see surrounding whitespace, and it is zero
    exactly on the texts that [strip] empties: the children that the
    chunker skips are those without any unit. *)
Theorem count_tokens_blank (text : string) :
  count_tokens (strip text) = count_tokens text
  ∧ (count_tokens text = 0%Z ↔ strip text = "").
Proof.
  split; [apply count_tokens_strip|].
  rewrite strip_empty_iff, <- split_ws_empty_iff. unfold count_tokens.
  destruct (split_ws text); simpl; [done|]. split; [lia|done].
Qed.

(** ** The chunker: what the chunks hold *)

Module ChunkerGroups.
Import Chunker.

Lemma elements_cons (e : string) (children : list string) :
  elements (e :: children)
  = (if truthy (strip e) then [strip e] else []) ++ elements children.
Proof.
  unfold elements. rewrite ExtractFacts.filter_cons_bool.
  by destruct (truthy (strip e)).
Qed.

Lemma elements_blank (children : list string) :
  elements children = [] ↔ Forall (λ e, strip e = "") children.
Proof.
  induction children as [|e children IH]; [done|].
  rewrite elements_cons, Forall_cons, <- IH.
  destruct (truthy (strip e)) eqn:He.
  - apply truthy_true in He. split; [done|]. by intros [? _].
  - apply truthy_false in He. simpl. tauto.
Qed.

Lemma join_nonempty (x : string) (g : list string) :
  x ≠ "" → join nl (x :: g) ≠ "".
Proof.
  intros Hx. destruct g as [|y g]; [done|]. cbn [join].
  destruct x; [done|]. by rewrite app_String.
Qed.

Section with_limit.
Variable token_limit : Z.

Lemma chunk_of_group_snoc (cur : string) (g : list string) (x : string) :
  chunk_of_group cur g → chunk_of_group (cur +:+ nl +:+ x) (g ++ [x]).
Proof.
  intros [Hg Hcur]. split; [by destruct g|].
  rewrite join_snoc by done. destruct Hcur as [->| ->]; [by left|].
  right. by rewrite !app_assoc_s.
Qed.

Local Ltac solve_concat :=
  simpl; rewrite ?concat_app; simpl; rewrite ?app_nil_r;
  rewrite <- ?(assoc_L (++)); simpl; done.

Lemma step_grouped (st : state) (element : string)
    (groups : list (list string)) (g : list string) :
  grouped st groups g →
  ∃ groups' g',
    grouped (step token_limit st element) groups' g'
    ∧ concat groups' ++ g' = (concat groups ++ g) ++ elements [element].
Proof.
  intros [Hb Hcur]. rewrite elements_cons.
  change (elements []) with (@nil string). unfold step.
  destruct (truthy (strip element)) eqn:Ht; simpl;
    [|exists groups, g; by rewrite !app_nil_r].
  apply truthy_true in Ht.
  assert (chunk_of_group (strip element) [strip element]) as Hsingle
    by by split; [|left].
  destruct (Z.ltb_spec token_limit (count_tokens (strip element)))
    as [Hbig|Hsmall].
  - destruct Hcur as [[Hcur ->]|[Hne Hcur]].
    + rewrite Hcur. simpl. exists (groups ++ [[strip element]]), [].
      split; [|solve_concat].
      split; [|by left]. simpl. apply Forall2_app; [done|by constructor].
    + apply truthy_true in Hne as Htr. rewrite Htr. simpl.
      exists ((groups ++ [g]) ++ [[strip element]]), [].
      split; [|solve_concat].
      split; [|by left]. simpl.
      apply Forall2_app; [|by constructor].
      apply Forall2_app; [done|by constructor].
  - destruct (Z.leb_spec (count_tokens (current_batch st)
                          + count_tokens (strip element)) token_limit)
      as [Hfit|Hover].
    + exists groups, (g ++ [strip element]).
      split; [|solve_concat].
      split; [done|]. right. simpl. split.
      { destruct (current_batch st); [done|]. by rewrite app_String. }
      destruct Hcur as [[-> ->]|[_ Hcur]]; [|by apply chunk_of_group_snoc].
      split; [done|]. by right.
    + destruct Hcur as [[Hcur ->]|[Hne Hcur]].
      { rewrite Hcur in Hover. change (count_tokens "") with 0%Z in Hover.
        lia. }
      exists (groups ++ [g]), [strip element].
      split; [|solve_concat].
      split; [|by right]. simpl. apply Forall2_app; [done|by constructor].
Qed.

Lemma run_grouped (st : state) (children : list string)
    (groups : list (list string)) (g : list string) :
  grouped st groups g →
  ∃ groups' g',
    grouped (foldl (step token_limit) st children) groups' g'
    ∧ concat groups' ++ g' = (concat groups ++ g) ++ elements children.
Proof.
  revert st groups g. induction children as [|e children IH];
    intros st groups g Hst.
  { exists groups, g. change (elements []) with (@nil string).
    by rewrite app_nil_r. }
  destruct (step_grouped st e groups g Hst) as (groups1 & g1 & Hst1 & Heq1).
  destruct (IH _ _ _ Hst1) as (groups2 & g2 & Hst2 & Heq2).
  exists groups2, g2. split; [done|].
  rewrite Heq2, Heq1, !elements_cons.
  change (elements []) with (@nil string).
  destruct (truthy (strip e)); solve_concat.
Qed.

(** The batches are the elements cut into consecutive non-empty groups. *)
Lemma batch_contents_groups (children : list string) :
  ∃ groups,
    concat groups = elements children
    ∧ Forall2 chunk_of_group (batch_contents children token_limit) groups.
Proof.
  destruct (run_grouped init children [] []) as (groups & g & [Hb Hcur] & Heq).
  { split; [constructor|by left]. }
  simpl in Heq. unfold batch_contents, finish, run.
  destruct Hcur as [[Hcur ->]|[Hne Hcur]].
  - rewrite Hcur. simpl. exists groups. by rewrite app_nil_r in Heq.
  - apply truthy_true in Hne as ->. exists (groups ++ [g]). split.
    + by rewrite concat_app; simpl; rewrite app_nil_r.
    + apply Forall2_app; [done|by constructor].
Qed.

End with_limit.
End ChunkerGroups.

(** X2.  The chunks hold every non-blank child exactly once, whole and in
    document order: the stripped non-blank children, cut into consecutive
    non-empty groups, give the chunk contents, each group joined by
    newlines (after a leading newline when the group was accumulated from
    the empty string). *)
Theorem chunk_partition (children : list string) (token_limit : Z) :
  ∃ groups,
    concat groups = elements children
    ∧ Forall2 (λ chunk g,
                 g ≠ []
                 ∧ (chunk = Chunker.wrap (join nl g)
                    ∨ chunk = Chunker.wrap (nl +:+ join nl g)))
              (batch_html_by_tokens children token_limit) groups.
Proof.
  destruct (ChunkerGroups.batch_contents_groups token_limit children)
    as (groups & Hc & Hf).
  exists groups. split; [done|]. unfold batch_html_by_tokens.
  apply Forall2_fmap_l. eapply Forall2_impl; [done|].
  intros content g [Hg [->| ->]]; auto.
Qed.

(** X3.  No chunk is produced exactly when every child is blank; an empty
    document is the special case.  The number of chunks never exceeds the
    number of non-blank children. *)
Theorem chunks_empty_iff (children : list string) (token_limit : Z) :
  (batch_html_by_tokens children token_limit = []
   ↔ Forall (λ e, strip e = "") children)
  ∧ length (batch_html_by_tokens children token_limit)
    ≤ length (elements children).
Proof.
  destruct (ChunkerGroups.batch_contents_groups token_limit children)
    as (groups & Hc & Hf).
  unfold batch_html_by_tokens. rewrite <- ChunkerGroups.elements_blank, <- Hc.
  split.
  - split.
    + intros H%fmap_nil_inv. rewrite H in Hf.
      by apply Forall2_nil_inv_l in Hf as ->.
    + intros H.
      destruct Hf as [|content g contents groups' [Hg _] Hf]; [done|].
      simpl in H. by destruct g.
  - rewrite length_fmap, (Forall2_length _ _ _ Hf).
    clear Hc. induction Hf as [|content g contents groups' [Hg _] Hf IH];
      [done|].
    simpl. rewrite length_app. destruct g; [done|]. simpl. lia.
Qed.

(** ** The chunker: a document that fits, and the units of a wrapped chunk *)

Module ChunkerCounts.
Import Chunker ChunkerGroups.

Lemma accumulated_snoc (g : list string) (x : string) :
  accumulated (g ++ [x]) = accumulated g +:+ nl +:+ x.
Proof.
  destruct g as [|y g]; [done|].
  change (accumulated ((y :: g) ++ [x]))
    with (nl +:+ join nl ((y :: g) ++ [x])).
  rewrite join_snoc by done. unfold accumulated. by rewrite !app_assoc_s.
Qed.

Lemma total_tokens_nonneg (children : list string) :
  (0 ≤ total_tokens children)%Z.
Proof.
  induction children as [|e children IH]; simpl; [done|].
  pose proof (count_tokens_nonneg e). lia.
Qed.

Lemma run_fits (token_limit : Z) (children : list string) (st : state)
    (g : list string) :
  batches st = [] →
  current_batch st = accumulated g →
  (count_tokens (current_batch st) + total_tokens children ≤ token_limit)%Z →
  foldl (step token_limit) st children
  = mk_state [] (accumulated (g ++ elements children)).
Proof.
  revert st g. induction children as [|e children IH]; intros st g Hb Hc Hfit.
  { change (elements []) with (@nil string). rewrite app_nil_r.
    destruct st. simpl in *. by subst. }
  simpl foldl. simpl in Hfit. rewrite elements_cons.
  pose proof (count_tokens_nonneg (current_batch st)) as Hcur.
  pose proof (total_tokens_nonneg children) as Htot.
  pose proof (count_tokens_nonneg e) as He.
  unfold step at 2. destruct (truthy (strip e)) eqn:Ht; simpl.
  - rewrite count_tokens_strip.
    assert ((token_limit <? count_tokens e)%Z = false) as ->
      by (apply Z.ltb_ge; lia).
    assert ((count_tokens (current_batch st) + count_tokens e
             <=? token_limit)%Z = true) as -> by (apply Z.leb_le; lia).
    rewrite (IH _ (g ++ [strip e])); simpl.
    + by rewrite <- (assoc_L (++)).
    + done.
    + by rewrite accumulated_snoc, Hc.
    + rewrite count_tokens_newline, count_tokens_strip. lia.
  - apply IH; [done..|lia].
Qed.

(** *** Units of a text between two words *)

Lemma starts_word_app (a b : string) :
  a ≠ "" → starts_word (a +:+ b) = starts_word a.
Proof. by destruct a. Qed.

Lemma open_end_app (a b : string) :
  b ≠ "" → open_end (a +:+ b) = open_end b.
Proof.
  intros Hb. induction a as [|c a IH]; [done|]. rewrite app_String.
  cbn [open_end]. destruct (a +:+ b) eqn:Hab; [|done].
  destruct a; [by rewrite app_empty_l in Hab|by rewrite app_String in Hab].
Qed.

Lemma open_end_nonempty (s : string) : open_end s = false → s ≠ "".
Proof. by destruct s. Qed.

Lemma open_end_rstrip (s : string) :
  rstrip s ≠ "" → open_end (rstrip s) = false.
Proof.
  induction s as [|c s IH]; [done|]. cbn [rstrip].
  destruct (rstrip s) as [|y r] eqn:Hr.
  - destruct (isspace c) eqn:Hc; [done|]. intros _. cbn [open_end]. done.
  - intros _. cbn [open_end]. by apply IH.
Qed.

(** A word in front adds a unit unless the text starts with a word. *)
Lemma split_ws_word_before (p s : string) :
  no_space p = true → p ≠ "" →
  length (split_ws (p +:+ s))
  = length (split_ws s) + (if starts_word s then 0 else 1).
Proof.
  induction p as [|a p IH]; [done|]. cbn [no_space].
  intros [Ha%negb_true_iff Hp]%andb_prop _. rewrite app_String.
  rewrite split_ws_cons_word by done.
  destruct p as [|b p].
  - rewrite app_empty_l. destruct (starts_word s) eqn:Hs; simpl; [|lia].
    apply split_ws_starts_word in Hs. destruct (split_ws s); simpl; [done|lia].
  - rewrite starts_word_app by done. cbn [starts_word].
    pose proof Hp as Hp'. cbn [no_space] in Hp'.
    apply andb_prop in Hp' as [Hb _]. rewrite Hb.
    rewrite <- IH by done.
    assert (split_ws (String b p +:+ s) ≠ []) as Hne.
    { rewrite app_String. apply split_ws_head_nonspace.
      by apply negb_true_iff. }
    by destruct (split_ws (String b p +:+ s)).
Qed.

(** A word behind adds a unit unless the text ends with a word. *)
Lemma split_ws_word_after (s q : string) :
  no_space q = true → q ≠ "" →
  length (split_ws (s +:+ q))
  = length (split_ws s) + (if open_end s then 1 else 0).
Proof.
  intros Hq Hne.
  assert (length (split_ws q) = 1) as Hq1.
  { pose proof (split_ws_word_before q "" Hq Hne) as H.
    by rewrite app_empty_r in H. }
  assert (starts_word q = true) as Hqs.
  { destruct q as [|c q]; [done|]. cbn [no_space] in Hq.
    by apply andb_prop in Hq as [? _]. }
  induction s as [|c s IH].
  { by rewrite app_empty_l, Hq1. }
  rewrite app_String. destruct (isspace c) eqn:Hc.
  - cbn [split_ws]. rewrite Hc, IH. cbn [open_end].
    destruct s as [|c' s]; [by rewrite Hc|done].
  - rewrite !split_ws_cons_word by done. destruct s as [|c' s].
    + rewrite app_empty_l, Hqs. cbn [starts_word open_end]. rewrite Hc.
      pose proof (split_ws_starts_word q Hqs).
      destruct (split_ws q); simpl in *; [done|lia].
    + rewrite starts_word_app by done.
      change (open_end (String c (String c' s)))
        with (open_end (String c' s)).
      destruct (starts_word (String c' s)) eqn:Hs.
      * pose proof (split_ws_starts_word _ Hs) as Hne1.
        assert (split_ws (String c' s +:+ q) ≠ []) as Hne2.
        { apply split_ws_starts_word. by rewrite starts_word_app. }
        destruct (split_ws (String c' s)), (split_ws (String c' s +:+ q));
          simpl in *; done || lia.
      * cbn [length]. rewrite IH. lia.
Qed.

(** An element of the chunker starts and ends with a word. *)
Lemma element_shape (children : list string) (x : string) :
  x ∈ elements children →
  x ≠ "" ∧ starts_word x = true ∧ open_end x = false.
Proof.
  unfold elements. intros (e & -> & He)%list_elem_of_fmap.
  apply list_elem_of_filter in He as [He%Is_true_true%truthy_true _].
  split; [done|]. split.
  - unfold strip in *. rewrite starts_word_rstrip.
    destruct (lstrip_head e) as [Hl|(c & t & -> & Hc)]; [by rewrite Hl in He|].
    cbn [starts_word]. by rewrite Hc.
  - by apply open_end_rstrip.
Qed.

Lemma join_shape (g : list string) :
  g ≠ [] →
  Forall (λ x, x ≠ "" ∧ starts_word x = true ∧ open_end x = false) g →
  starts_word (join nl g) = true ∧ open_end (join nl g) = false.
Proof.
  induction g as [|x g IH]; [done|]. intros _ [(Hx & Hs & Ho) Hg]%Forall_cons.
  destruct g as [|y g]; [done|]. cbn [join].
  destruct (IH ltac:(done) Hg) as [_ Ho'].
  rewrite starts_word_app by done. split; [done|].
  rewrite open_end_app by done.
  rewrite open_end_app by by apply open_end_nonempty. done.
Qed.

Lemma wrap_count (content : string) :
  content ≠ "" → open_end content = false →
  count_tokens (wrap content)
  = (count_tokens content + (if starts_word content then 0 else 1))%Z.
Proof.
  intros Hne Ho. unfold count_tokens, wrap.
  rewrite split_ws_word_before by done.
  rewrite starts_word_app by done.
  rewrite split_ws_word_after by done. rewrite Ho.
  destruct (starts_word content); lia.
Qed.

End ChunkerCounts.

(** X4.  When the units of all children together do not exceed the limit,
    the document is not split: a document with a non-blank child gives one
    chunk, which holds every non-blank child, stripped, each preceded by a
    newline. *)
Theorem document_that_fits (children : list string) (token_limit : Z) :
  (total_tokens children ≤ token_limit)%Z →
  batch_html_by_tokens children token_limit
  = match elements children with
    | [] => []
    | g => [Chunker.wrap (nl +:+ join nl g)]
    end.
Proof.
  intros Hfit. unfold batch_html_by_tokens, Chunker.batch_contents, Chunker.run.
  rewrite (ChunkerCounts.run_fits token_limit children Chunker.init []);
    [|done..].
  simpl. by destruct (elements children).
Qed.

Lemma document_that_fits_witness :
  batch_html_by_tokens ["<p>a b</p>"; "  "; " <div>c</div> "] 5
  = [Chunker.wrap (nl +:+ join nl ["<p>a b</p>"; "<div>c</div>"])].
Proof.
  apply (document_that_fits ["<p>a b</p>"; "  "; " <div>c</div> "] 5).
  by vm_compute.
Defined.

(** X5.  The limit bounds the units of a chunk's content, not of the chunk:
    the envelope closes up to the first and the last word of the content,
    so a chunk has the units of its content, plus one when the content
    starts with the newline of an accumulation begun from the empty
    string. *)
Theorem wrapped_chunk_units (children : list string) (token_limit : Z) :
  Forall (λ chunk,
            ∃ content,
              chunk = Chunker.wrap content
              ∧ count_tokens chunk
                = (count_tokens content
                   + (if startswith content nl then 1 else 0))%Z)
         (batch_html_by_tokens children token_limit).
Proof.
  destruct (ChunkerGroups.batch_contents_groups token_limit children)
    as (groups & Hc & Hf).
  unfold batch_html_by_tokens. apply Forall_fmap.
  assert (Forall (Forall (λ x, x ∈ elements children)) groups) as Hel.
  { rewrite <- Hc. clear. induction groups as [|g groups IH]; [done|].
    constructor.
    - apply Forall_forall. intros x Hx. simpl. apply elem_of_app. by left.
    - eapply Forall_impl; [done|]. intros g' Hg'. simpl.
      eapply Forall_impl; [done|]. intros x Hx. simpl in *.
      apply elem_of_app. by right. }
  clear Hc. induction Hf as [|content g contents groups' [Hg Hcg] Hf IH];
    [done|].
  apply Forall_cons in Hel as [Hg_el Hel]. constructor; [|by apply IH].
  exists content. split; [done|].
  assert (starts_word (join nl g) = true ∧ open_end (join nl g) = false)
    as [Hs Ho].
  { apply ChunkerCounts.join_shape; [done|].
    eapply Forall_impl; [done|]. apply ChunkerCounts.element_shape. }
  assert (join nl g ≠ "") as Hne by by apply ChunkerCounts.open_end_nonempty.
  destruct Hcg as [->| ->].
  - rewrite ChunkerCounts.wrap_count by done. rewrite Hs.
    destruct (join nl g) as [|c t]; [done|]. cbn [starts_word] in Hs.
    unfold startswith, nl. cbn [strip_prefix].
    destruct (Ascii.eqb_spec LF c) as [<-|_]; [done|]. done.
  - rewrite ChunkerCounts.wrap_count.
    + done.
    + done.
    + by rewrite ChunkerCounts.open_end_app.
Qed.

(** ** Block extraction: what is retained *)

Module FlattenMore.

Lemma flatten_fold_sublist (st : flat_state) (pre lines : list string) :
  flattened_lines st `sublist_of` pre →
  flattened_lines (foldl flatten_step st lines) `sublist_of` pre ++ lines.
Proof.
  revert st pre. induction lines as [|line lines IH]; intros st pre Hst.
  { by rewrite app_nil_r. }
  rewrite cons_middle, (assoc_L (++)). simpl. apply IH.
  unfold flatten_step.
  destruct (startswith (strip line) "class "); [by apply sublist_inserts_r|].
  destruct (String.eqb (strip line) "end").
  - destruct (0 <? in_class st)%nat; by apply sublist_inserts_r.
  - destruct (0 <? in_class st)%nat; [|by apply sublist_inserts_r].
    simpl. by apply sublist_app.
Qed.

Lemma flatten_fold_content (st : flat_state) (lines : list string) :
  let ok l := startswith (strip l) "class " = false ∧ strip l ≠ "end" in
  Forall ok (flattened_lines st) →
  Forall ok (flattened_lines (foldl flatten_step st lines)).
Proof.
  intros ok. revert st. induction lines as [|line lines IH]; intros st Hst;
    [done|].
  simpl. apply IH. unfold flatten_step.
  destruct (startswith (strip line) "class ") eqn:Hclass; [done|].
  destruct (String.eqb_spec (strip line) "end") as [Heq|Hne].
  - by destruct (0 <? in_class st)%nat.
  - destruct (0 <? in_class st)%nat; [|done]. simpl.
    apply Forall_app. split; [done|]. by apply Forall_singleton.
Qed.

End FlattenMore.

(** X6.  Block extraction only drops lines: what it retains is a
    subsequence of the input lines, in their order, and holds neither a
    [class] line nor an [end] line. *)
Theorem flattened_content (lines : list string) :
  flatten_classes lines `sublist_of` lines
  ∧ Forall (λ l, startswith (strip l) "class " = false ∧ strip l ≠ "end")
           (flatten_classes lines).
Proof.
  split.
  - apply (FlattenMore.flatten_fold_sublist (mk_flat 0 []) [] lines).
    apply sublist_nil_l.
  - by apply (FlattenMore.flatten_fold_content (mk_flat 0 []) lines).
Qed.

(** X7.  Without any [class] line nothing is retained and the fallback
    makes the whole input, [end] lines included, the block content. *)
Theorem whole_input_without_class_line (lines : list string) :
  Forall (λ l, startswith (strip l) "class " = false) lines →
  flatten_classes lines = [] ∧ block_content lines = lines.
Proof.
  intros Hl. split; [by apply flatten_without_marker|].
  unfold block_content. by rewrite flatten_without_marker.
Qed.

Lemma whole_input_without_class_line_witness :
  flatten_classes ["def go"; "  click"; "end"; "link(:x)"] = []
  ∧ block_content ["def go"; "  click"; "end"; "link(:x)"]
    = ["def go"; "  click"; "end"; "link(:x)"].
Proof.
  apply (whole_input_without_class_line
           ["def go"; "  click"; "end"; "link(:x)"]).
  by repeat constructor.
Defined.

(** ** The scanner: where the lines go *)

Module ScanMore.

Lemma occurrences_partition (capturing : option (string * list string))
    (lines : list string) :
  default [] (snd <$> capturing) ++ lines
  ≡ₚ leftovers (bool_decide (is_Some capturing)) lines
     ++ concat (snd <$> occurrences capturing lines).
Proof.
  revert capturing. induction lines as [|line lines IH]; intros c.
  - destruct c as [[name span]|]; simpl; [|done]. by rewrite !app_nil_r.
  - destruct c as [[name span]|]; simpl.
    + destruct (end_pattern line); simpl.
      * rewrite cons_middle, (assoc_L (++)).
        rewrite (IH None) at 1. simpl.
        by rewrite Permutation_app_swap_app.
      * rewrite cons_middle, (assoc_L (++)).
        by rewrite <- (IH (Some (name, span ++ [line]))).
    + destruct (def_pattern line) as [name|].
      * by rewrite <- (IH (Some (name, [line]))).
      * simpl. by rewrite <- (IH None).
Qed.

Lemma dict_append_lines (d : method_dict) (k : string) (block : list string) :
  concat (concat (snd <$> dict_append d k block))
  ≡ₚ concat (concat (snd <$> d)) ++ block.
Proof.
  induction d as [|[k' blocks] d IH]; csimpl.
  { by rewrite !app_nil_r. }
  destruct (decide (k = k')); csimpl.
  - rewrite !concat_app. csimpl. rewrite app_nil_r.
    rewrite <- !(assoc_L (++)). apply Permutation_app_head.
    apply Permutation_app_comm.
  - rewrite !concat_app, IH. by rewrite (assoc_L (++)).
Qed.

Lemma group_lines (d : method_dict) (log : list (string * list string)) :
  concat (concat (snd <$> foldl file_span d log))
  ≡ₚ concat (concat (snd <$> d)) ++ concat (snd <$> log).
Proof.
  revert d. induction log as [|o log IH]; intros d; csimpl.
  { by rewrite app_nil_r. }
  rewrite IH. unfold file_span at 1. rewrite dict_append_lines.
  by rewrite (assoc_L (++)).
Qed.

End ScanMore.

(** X8.  Every line that the method scanner reads goes, by occurrence, to
    exactly one place: it is a leftover line or a line of one filed span.
    This holds on every path, the whole-input fallback included. *)
Theorem scanner_partition (lines : list string) :
  lines
  ≡ₚ leftover (scan_methods lines)
     ++ concat (concat (snd <$> methods_extracted (scan_methods lines))).
Proof.
  destruct (ScanFacts.scan_methods_spec lines) as [-> ->].
  rewrite ScanMore.group_lines. csimpl.
  apply (ScanMore.occurrences_partition None lines).
Qed.

(** ** The scanner: spans and names *)

Module SpanFacts.

Lemma def_pattern_not_end (line name : string) :
  def_pattern line = Some name → end_pattern line = false.
Proof.
  unfold def_pattern, end_pattern.
  destruct (strip_prefix "def" (lstrip line)) as [r|] eqn:Hp; [|done].
  intros _. apply strip_prefix_Some in Hp. by rewrite Hp.
Qed.

Lemma take_while_name_chars (s : string) :
  all_name_chars (take_while name_char s) = true.
Proof.
  induction s as [|c s IH]; [done|]. cbn [take_while].
  destruct (name_char c) eqn:Hc; [|done]. cbn [all_name_chars].
  by rewrite Hc, IH.
Qed.

Lemma def_pattern_name (line name : string) :
  def_pattern line = Some name → name ≠ "" ∧ all_name_chars name = true.
Proof.
  unfold def_pattern.
  destruct (strip_prefix "def" (lstrip line)) as [[|c r]|]; [done| |done].
  destruct (isspace c); [|done].
  pose proof (take_while_name_chars (lstrip (String c r))) as Hn.
  destruct (take_while name_char (lstrip (String c r))); [done|].
  by intros [= <-].
Qed.

Lemma capture_open_step (st : scan_state) (line : string) :
  scan_wf st → capture_open st →
  capture_open (scan_step st line).
Proof.
  destruct st as [d lo im nm cl].
  unfold scan_wf, capture_open, capture_of, scan_step, span_open.
  simpl. destruct im.
  - intros (name & -> & Hne) Hopen. specialize (Hopen _ eq_refl).
    simpl in Hopen.
    destruct (def_pattern line); destruct (end_pattern line) eqn:He; simpl;
      try done; intros o [= <-]; simpl; apply Forall_app;
      (split; [done|by apply Forall_singleton]).
  - intros [-> ->] _. destruct (def_pattern line) as [name|] eqn:Hd; simpl;
      [|done].
    intros o [= <-]. simpl. apply Forall_singleton.
    by eapply def_pattern_not_end.
Qed.

(** What one line adds to the filed spans. *)
Lemma occurrences_step (st : scan_state) (line : string)
    (lines : list string) :
  scan_wf st →
  occurrences (capture_of st) (line :: lines)
  = match capture_of st with
    | Some (name, span) =>
        if end_pattern line then [(name, span ++ [line])] else []
    | None => []
    end
    ++ occurrences (capture_of (scan_step st line)) lines.
Proof.
  destruct st as [d lo im nm cl].
  unfold scan_wf, capture_of, scan_step. simpl. destruct im.
  - intros (name & -> & Hne). simpl.
    destruct (def_pattern line); destruct (end_pattern line); simpl;
      try done; by destruct (cl ++ [line]).
  - intros [-> ->]. by destruct (def_pattern line).
Qed.

(** The filed spans are closed spans, followed by the span of the capture
    that the end of the input cut, if the scanner stopped inside one. *)
Lemma occurrences_closed (st : scan_state) (lines : list string) :
  scan_wf st → capture_open st →
  ∃ closed rest,
    occurrences (capture_of st) lines = closed ++ rest
    ∧ Forall span_closed closed
    ∧ (rest = []
       ∨ ∃ o, rest = [o] ∧ span_open o
              ∧ in_method (foldl scan_step st lines) = true).
Proof.
  revert st. induction lines as [|line lines IH]; intros st Hwf Hopen.
  - destruct st as [d lo im nm cl].
    unfold scan_wf, capture_open, capture_of in *. simpl in *.
    destruct im.
    + destruct Hwf as (name & -> & Hne). simpl in *.
      exists [], [(name, cl)]. split_and!; [done..|]. right.
      exists (name, cl). split_and!; [done| |done]. by apply Hopen.
    + exists [], []. split_and!; [done..|by left].
  - rewrite occurrences_step by done.
    destruct (IH (scan_step st line)) as (closed & rest & -> & Hcl & Hrest).
    { by apply ScanFacts.scan_step_wf. }
    { by apply capture_open_step. }
    destruct (capture_of st) as [[name span]|] eqn:Hc.
    + destruct (end_pattern line) eqn:He.
      * exists ((name, span ++ [line]) :: closed), rest.
        split_and!; [done| |done]. constructor; [|done].
        exists span, line. split_and!; [done..|].
        by apply (Hopen (name, span)).
      * by exists closed, rest.
    + by exists closed, rest.
Qed.

End SpanFacts.

(** X9.  Every span in the dictionary starts with its [def] line and holds
    no [end] line except, when the span was closed, as its last line.  When
    the scanner stops outside a capture, every span is closed: its last
    line is its [end] line. *)
Theorem spans_closed (lines : list string) :
  let d := methods_extracted (scan_methods lines) in
  Forall (λ e, Forall (λ b, span_closed (e.1, b) ∨ span_open (e.1, b)) e.2) d
  ∧ (in_method (foldl scan_step scan_init lines) = false →
     Forall (λ e, Forall (λ b, span_closed (e.1, b)) e.2) d).
Proof.
  intros d. unfold d. rewrite ScanFacts.methods_extracted_spec.
  destruct (SpanFacts.occurrences_closed scan_init lines)
    as (closed & rest & Hocc & Hcl & Hrest); [done..|].
  change (capture_of scan_init) with (@None (string * list string)) in Hocc.
  assert (Forall (λ o, span_closed o ∨ span_open o)
            (occurrences None lines)) as Hall.
  { rewrite Hocc. apply Forall_app. split.
    - eapply Forall_impl; [done|]. by left.
    - destruct Hrest as [->|(o & -> & Ho & _)]; [done|].
      apply Forall_singleton. by right. }
  split.
  - apply Forall_fmap, Forall_forall. intros name _. simpl.
    apply Forall_fmap, Forall_forall.
    intros [n span] [Hn Hin]%list_elem_of_filter. simpl in *. subst n.
    by eapply Forall_forall in Hall.
  - intros Hout.
    assert (rest = []) as ->.
    { destruct Hrest as [->|(o & _ & _ & Hin)]; [done|]. congruence. }
    rewrite app_nil_r in Hocc.
    apply Forall_fmap, Forall_forall. intros name _. simpl.
    apply Forall_fmap, Forall_forall.
    intros [n span] [Hn Hin]%list_elem_of_filter. simpl in *. subst n.
    rewrite Hocc in Hin. by eapply Forall_forall in Hcl.
Qed.

Lemma spans_closed_witness :
  Forall (λ e, Forall (λ b, span_closed (e.1, b)) e.2)
         (methods_extracted
            (scan_methods ["def a"; "x"; "end"; "y"; "def a"; "  end"])).
Proof.
  apply (spans_closed ["def a"; "x"; "end"; "y"; "def a"; "  end"]).
  reflexivity.
Defined.

(** X10.  The names of the dictionary are pairwise distinct, non-empty and
    made of the characters [a-zA-Z0-9_!?]; every name has at least one
    span, and every span filed under a name starts with a [def] line of
    that name. *)
Theorem method_names_valid (lines : list string) :
  let d := methods_extracted (scan_methods lines) in
  NoDup d.*1
  ∧ Forall (λ e,
              e.1 ≠ "" ∧ all_name_chars e.1 = true ∧ e.2 ≠ []
              ∧ Forall (λ b, ∃ opening rest,
                           b = opening :: rest
                           ∧ def_pattern opening = Some e.1) e.2) d.
Proof.
  intros d. unfold d. rewrite ScanFacts.methods_extracted_spec.
  set (occ := occurrences None lines).
  assert (Forall span_ok occ) as Hok by by apply MergeFacts.occurrences_ok.
  split.
  - rewrite <- list_fmap_compose.
    rewrite (list_fmap_ext _ id (first_seen occ.*1)) by done.
    rewrite list_fmap_id. apply NoDup_first_seen.
  - apply Forall_fmap, Forall_forall. intros name Hname. simpl.
    rewrite elem_of_first_seen in Hname.
    apply list_elem_of_fmap in Hname as ([n span] & -> & Hin). simpl.
    assert (Forall (λ b, ∃ opening rest,
                      b = opening :: rest ∧ def_pattern opening = Some n)
              (snd <$> filter (λ o, o.1 = n) occ)) as Hblocks.
    { apply Forall_fmap, Forall_forall.
      intros [n' span'] [Hn Hin']%list_elem_of_filter. simpl in *. subst n'.
      eapply Forall_forall in Hok; [|done].
      destruct Hok as (opening & rest & Hspan & Hdef). simpl in *.
      by exists opening, rest. }
    assert ((n, span) ∈ filter (λ o, o.1 = n) occ) as Hin'
      by by apply list_elem_of_filter.
    eapply Forall_forall in Hok; [|done].
    destruct Hok as (opening & rest & _ & Hdef). simpl in Hdef.
    destruct (SpanFacts.def_pattern_name _ _ Hdef) as [Hne Hchars].
    split_and!; [done..| |done].
    destruct (filter (λ o, o.1 = n) occ); [|done].
    by apply not_elem_of_nil in Hin'.
Qed.

(** ** The pipeline: consequences of the order of its steps *)

Module PipelineMore.

Lemma Forall_filter_self {A} (P : A → Prop) `{!∀ x, Decision (P x)}
    (l : list A) :
  Forall P (filter P l).
Proof. apply Forall_forall. by intros x [? _]%list_elem_of_filter. Qed.

Lemma filter_all {A} (P : A → Prop) `{!∀ x, Decision (P x)} (l : list A) :
  Forall P l → filter P l = l.
Proof.
  induction l as [|x l IH]; [done|]. intros [Hx Hl]%Forall_cons.
  rewrite filter_cons_True by done. by rewrite IH.
Qed.

Lemma filter_none {A} (P : A → Prop) `{!∀ x, Decision (P x)} (l : list A) :
  Forall (λ x, ¬ P x) l → filter P l = [].
Proof.
  induction l as [|x l IH]; [done|]. intros [Hx Hl]%Forall_cons.
  rewrite filter_cons_False by done. by apply IH.
Qed.

(** The method stream holds neither directive nor accessor lines. *)
Lemma method_stream_pure (lines : list string) :
  Forall (λ l, is_directive l = false ∧ is_accessor l = false)
         (method_stream lines).
Proof.
  rewrite PipelineFacts.method_stream_spec. apply Forall_forall.
  intros l [Hacc [Hdir _]%list_elem_of_filter]%list_elem_of_filter.
  split.
  - by destruct (is_directive l).
  - by destruct (is_accessor l).
Qed.

End PipelineMore.

(** X11.  When block extraction retains at least one line, at most one
    method is extracted: no [end] line reaches the scanner, so the first
    [def] line opens a capture that runs to the end of the stream.  The
    stream is then the leftover lines followed by that single span. *)
Theorem one_method_inside_blocks (combined_code : string) :
  let lines := code_lines combined_code in
  let p := analyse combined_code in
  flatten_classes lines ≠ [] →
  (p_methods p = [] ∧ p_leftover p = method_stream lines)
  ∨ ∃ name opening body,
      def_pattern opening = Some name
      ∧ method_stream lines = p_leftover p ++ opening :: body
      ∧ p_methods p = [(name, [opening :: body])].
Proof.
  intros lines p Hne. unfold p, analyse. fold lines.
  rewrite PipelineFacts.analyse_methods, PipelineFacts.analyse_leftover.
  destruct (ScanFacts.scan_methods_spec (method_stream lines)) as [-> _].
  assert (Forall (λ l, end_pattern l = false) (method_stream lines)) as Hend.
  { rewrite PipelineFacts.method_stream_spec.
    rewrite (block_content_retained _ Hne).
    apply PipelineFacts.Forall_filter_keep, PipelineFacts.Forall_filter_keep.
    apply FlattenFacts.flatten_classes_no_end. }
  pose proof (MergeFacts.occurrences_ok None (method_stream lines)
                ltac:(done)) as Hok.
  destruct (FlattenFacts.scan_without_end _ Hend)
    as [[Hocc Hlo]|(name & opening & body & Hstream & Hocc)].
  - left. by rewrite Hocc, Hlo.
  - right. exists name, opening, body. rewrite Hocc in Hok |- *.
    apply Forall_singleton in Hok as (o & r & [= <- <-] & Hdef).
    by split_and!.
Qed.

Lemma one_method_inside_blocks_witness :
  let code := join nl ["class P"; "x"; "def a"; "foo"; "def b"; "bar"] in
  (p_methods (analyse code) = []
   ∧ p_leftover (analyse code) = method_stream (code_lines code))
  ∨ ∃ name opening body,
      def_pattern opening = Some name
      ∧ method_stream (code_lines code)
        = p_leftover (analyse code) ++ opening :: body
      ∧ p_methods (analyse code) = [(name, [opening :: body])].
Proof.
  apply (one_method_inside_blocks
           (join nl ["class P"; "x"; "def a"; "foo"; "def b"; "bar"])).
  by vm_compute.
Defined.

(** X12.  Directive lines and accessor lines are taken out of the stream
    before the scanner runs: no leftover line and no line of any span is a
    directive or an accessor line. *)
Theorem extracted_lines_removed (lines : list string) :
  let p := analyse_lines lines in
  let plain l := is_directive l = false ∧ is_accessor l = false in
  Forall plain (p_leftover p)
  ∧ Forall (λ e, Forall (Forall plain) e.2) (p_methods p).
Proof.
  intros p plain. unfold p.
  pose proof (PipelineMore.method_stream_pure lines) as Hs. fold plain in Hs.
  split.
  - rewrite PipelineFacts.analyse_leftover.
    by apply PipelineFacts.leftovers_Forall.
  - rewrite PipelineFacts.analyse_methods, ScanFacts.methods_extracted_spec.
    apply Forall_fmap, Forall_forall. intros name _. simpl.
    apply Forall_fmap, PipelineFacts.Forall_filter_keep.
    by apply PipelineFacts.occurrences_Forall.
Qed.

(** X13.  The directive is emitted once when at least one content line is
    a directive line, however many there are, and not at all otherwise. *)
Theorem directive_once (lines : list string) :
  directive_section (found_include_pageobject (analyse_lines lines))
  = if decide (Exists (λ l, is_directive l = true) (block_content lines))
    then ["  include PageObject"; ""] else [].
Proof.
  pose proof (PipelineFacts.analyse_directive lines) as H.
  destruct (decide (Exists _ _)) as [Hex|Hnex].
  - apply Exists_exists in Hex. apply H in Hex. by rewrite Hex.
  - destruct (found_include_pageobject (analyse_lines lines)); [|done].
    destruct Hnex. apply Exists_exists. by apply H.
Qed.

(** X14.  Line-ending normalisation changes exactly the texts that hold a
    carriage return. *)
Theorem normalize_fixpoint (combined_code : string) :
  normalize combined_code = combined_code
  ↔ contains CR combined_code = false.
Proof.
  split.
  - intros <-. apply normalize_cr_free.
  - apply normalize_cr_free_id.
Qed.

(** ** Assembly of the merged methods *)

(** X15.  Joining a merged definition and splitting it again in the
    assembly loses nothing: every method of the dictionary contributes the
    lines of its merged definition, each indented by two spaces, followed
    by one empty line, in the order of the dictionary. *)
Theorem method_section_lines (combined_code : string) :
  let d := p_methods (analyse combined_code) in
  ∃ merged,
    merge_methods d = Some merged
    ∧ length merged = length d
    ∧ method_section merged
      = concat ((λ e, (indent <$> merged_definition e.2) ++ [""]) <$> d).
Proof.
  intros d. unfold d, analyse.
  set (lines := code_lines combined_code).
  rewrite PipelineFacts.analyse_methods, MergeFacts.merge_methods_scan.
  rewrite ScanFacts.methods_extracted_spec.
  set (occ := occurrences None (method_stream lines)).
  eexists. split; [done|]. split; [by rewrite !length_fmap|].
  unfold method_section. rewrite <- !list_fmap_compose. f_equal.
  apply list_fmap_ext. intros i name Hname. simpl.
  apply list_elem_of_lookup_2 in Hname. rewrite elem_of_first_seen in Hname.
  f_equal. f_equal. apply split_join.
  - destruct (MergeFacts.blocks_of_name _ name Hname)
      as (first_block & others & opening & rest & Hb & -> & _).
    fold occ in Hb. by rewrite Hb.
  - apply (PipelineFacts.merged_definition_Forall
             (λ x, contains LF x = false)); [done..|].
    apply Forall_fmap, PipelineFacts.Forall_filter_keep.
    apply PipelineFacts.occurrences_Forall; [done|].
    apply PipelineFacts.method_stream_Forall. apply split_free.
Qed.

(** ** The accumulated answers *)

Module CombineFacts.

Lemma foldl_combine (acc : string) (pageobjects : list string) :
  foldl (λ combined pageobject, combined +:+ (pageobject +:+ nl))
        acc pageobjects
  = acc +:+ combine_pageobjects pageobjects.
Proof.
  unfold combine_pageobjects. revert acc.
  induction pageobjects as [|p ps IH]; intros acc; simpl.
  { by rewrite app_empty_r. }
  rewrite IH, (IH ("" +:+ _)), app_empty_l. by rewrite !app_assoc_s.
Qed.

Lemma combine_cons (p : string) (ps : list string) :
  combine_pageobjects (p :: ps) = p +:+ nl +:+ combine_pageobjects ps.
Proof.
  unfold combine_pageobjects at 1. simpl.
  by rewrite foldl_combine, app_empty_l, app_assoc_s.
Qed.

Lemma split_app_newline (a b : string) :
  split LF (a +:+ String LF b) = split LF a ++ split LF b.
Proof.
  induction a as [|c a IH].
  - rewrite app_empty_l. cbn [split]. by rewrite Ascii.eqb_refl.
  - rewrite app_String. cbn [split]. rewrite IH.
    destruct (Ascii.eqb c LF); [done|].
    pose proof (split_nonempty LF a). by destruct (split LF a).
Qed.

Lemma all_space_app (a b : string) :
  all_space (a +:+ b) = all_space a && all_space b.
Proof.
  induction a as [|c a IH]; [done|]. rewrite app_String. cbn [all_space].
  by rewrite IH, andb_assoc.
Qed.

Lemma all_space_replace (old new : string) (skip : nat) (s : string) :
  all_space new = true → all_space s = true →
  all_space (replace_from old new skip s) = true.
Proof.
  intros Hnew. revert skip. induction s as [|c s IH]; intros skip; [done|].
  cbn [all_space replace_from]. intros [Hc Hs]%andb_prop.
  destruct skip; [|by apply IH].
  destruct (startswith (String c s) old).
  - rewrite all_space_app, Hnew. by apply IH.
  - cbn [all_space]. rewrite Hc. by apply IH.
Qed.

Lemma all_space_split (sep : ascii) (s : string) :
  all_space s = true → Forall (λ l, all_space l = true) (split sep s).
Proof.
  induction s as [|c s IH]; [by repeat constructor|].
  cbn [all_space split]. intros [Hc Hs]%andb_prop. specialize (IH Hs).
  destruct (Ascii.eqb c sep); [by constructor|].
  destruct (split sep s) as [|h t].
  - constructor; [|done]. cbn [all_space]. by rewrite Hc.
  - apply Forall_cons in IH as [Hh Ht]. constructor; [|done].
    cbn [all_space]. by rewrite Hc, Hh.
Qed.

Lemma all_space_combine (pageobjects : list string) :
  Forall (λ p, all_space p = true) pageobjects →
  all_space (combine_pageobjects pageobjects) = true.
Proof.
  induction pageobjects as [|p ps IH]; [done|].
  intros [Hp Hps]%Forall_cons. rewrite combine_cons, !all_space_app.
  by rewrite Hp, IH.
Qed.

Lemma cr_free_combine (pageobjects : list string) :
  Forall (λ p, contains CR p = false) pageobjects →
  contains CR (combine_pageobjects pageobjects) = false.
Proof.
  induction pageobjects as [|p ps IH]; [done|].
  intros [Hp Hps]%Forall_cons. rewrite combine_cons, !contains_app.
  by rewrite Hp, IH.
Qed.

Lemma split_combine (pageobjects : list string) :
  split LF (combine_pageobjects pageobjects)
  = concat (split LF <$> pageobjects) ++ [""].
Proof.
  induction pageobjects as [|p ps IH]; [done|].
  rewrite combine_cons. unfold nl. rewrite app_String, app_empty_l.
  rewrite split_app_newline, IH. csimpl. by rewrite (assoc_L (++)).
Qed.

(** The parse of an input whose lines are all blank. *)
Lemma analyse_blank (lines : list string) :
  Forall (λ l, all_space l = true) lines →
  found_include_pageobject (analyse_lines lines) = false
  ∧ p_accessors (analyse_lines lines) = []
  ∧ p_methods (analyse_lines lines) = []
  ∧ leftover_section (p_leftover (analyse_lines lines)) = [].
Proof.
  intros Hl.
  assert (Forall (λ l, strip l = "") lines) as Hstrip.
  { eapply Forall_impl; [exact Hl|]. intros l. apply strip_empty_iff. }
  assert (block_content lines = lines) as Hcontent.
  { apply fallback_without_marker. eapply Forall_impl; [exact Hstrip|].
    intros l Hs. simpl in Hs. by rewrite Hs. }
  assert (Forall (λ l, ¬ is_directive l) lines) as Hdir.
  { eapply Forall_impl; [exact Hstrip|]. intros l Hs. simpl in Hs.
    unfold is_directive. rewrite Hs. intros H. exact H. }
  assert (Forall (λ l, ¬ is_accessor l) lines) as Hacc.
  { eapply Forall_impl; [exact Hstrip|]. intros l Hs. simpl in Hs.
    unfold is_accessor. rewrite Hs. intros H. exact H. }
  assert (method_stream lines = lines) as Hstream.
  { rewrite PipelineFacts.method_stream_spec, Hcontent.
    by rewrite (PipelineMore.filter_all _ _ Hdir),
         (PipelineMore.filter_all _ _ Hacc). }
  assert (occurrences None lines = [] ∧ leftovers false lines = lines)
    as [Hocc Hlo].
  { clear -Hl. induction lines as [|l lines IH]; [done|].
    apply Forall_cons in Hl as [Hs Hl]. destruct (IH Hl) as [IH1 IH2].
    simpl. unfold def_pattern.
    assert (lstrip l = "") as -> by by apply lstrip_empty_iff.
    simpl. by rewrite IH1, IH2. }
  split_and!.
  - pose proof (PipelineFacts.analyse_directive lines) as H.
    destruct (found_include_pageobject (analyse_lines lines)); [|done].
    destruct (proj1 H eq_refl) as (l & Hin & Hd). rewrite Hcontent in Hin.
    eapply Forall_forall in Hdir; [|done]. destruct Hdir. by rewrite Hd.
  - rewrite PipelineFacts.analyse_accessors, Hcontent.
    by rewrite PipelineMore.filter_none.
  - rewrite PipelineFacts.analyse_methods, Hstream.
    destruct (ScanFacts.scan_methods_spec lines) as [-> _].
    by rewrite Hocc.
  - rewrite PipelineFacts.analyse_leftover, Hstream, Hlo.
    unfold leftover_section, leftover_stripped.
    rewrite PipelineMore.filter_none; [done|].
    eapply Forall_impl; [exact Hstrip|]. intros l Hs. simpl in Hs. rewrite Hs.
    intros H. exact H.
Qed.

End CombineFacts.

(** X16.  Accumulating the answers keeps them apart: when no answer holds a
    carriage return, the lines that the merger reads are the lines of the
    answers, in batch order, and one final empty line; an empty answer
    contributes one empty line. *)
Theorem combined_lines (pageobjects : list string) :
  Forall (λ p, contains CR p = false) pageobjects →
  code_lines (combine_pageobjects pageobjects)
  = concat (code_lines <$> pageobjects) ++ [""].
Proof.
  intros Hp. unfold code_lines.
  rewrite normalize_cr_free_id by by apply CombineFacts.cr_free_combine.
  rewrite CombineFacts.split_combine. do 2 f_equal.
  apply Forall_fmap_ext_1. eapply Forall_impl; [done|].
  intros p Hcr. simpl in *. by rewrite normalize_cr_free_id.
Qed.

Lemma combined_lines_witness :
  code_lines (combine_pageobjects ["class A" +:+ nl +:+ "end"; ""; "x"])
  = concat (code_lines <$> ["class A" +:+ nl +:+ "end"; ""; "x"]) ++ [""].
Proof.
  apply (combined_lines ["class A" +:+ nl +:+ "end"; ""; "x"]).
  by repeat constructor.
Defined.

(** X17.  When every answer is blank, in particular when every call of the
    generation service failed and gave the empty string, the merge of the
    accumulated text is the empty class: its opening line, two empty lines
    and [end]. *)
Theorem blank_answers_empty_class (pageobjects : list string)
    (site_name : string) :
  Forall (λ p, all_space p = true) pageobjects →
  beautify_ruby_class (combine_pageobjects pageobjects) site_name
  = Some (join nl ["class " +:+ site_name; ""; ""; "end"]).
Proof.
  intros Hp.
  assert (Forall (λ l, all_space l = true)
            (code_lines (combine_pageobjects pageobjects))) as Hl.
  { unfold code_lines, normalize, replace.
    apply CombineFacts.all_space_split.
    apply CombineFacts.all_space_replace; [done|].
    apply CombineFacts.all_space_replace; [done|].
    by apply CombineFacts.all_space_combine. }
  destruct (CombineFacts.analyse_blank _ Hl) as (Hf & Ha & Hm & Hlo).
  unfold beautify_ruby_class, analyse. rewrite Hm.
  cbn [merge_methods mbind option_bind]. unfold final_lines.
  by rewrite Hf, Ha, Hlo.
Qed.

Lemma blank_answers_empty_class_witness :
  beautify_ruby_class (combine_pageobjects [""; "  "; ""]) "Page"
  = Some (join nl ["class " +:+ "Page"; ""; ""; "end"]).
Proof.
  apply (blank_answers_empty_class [""; "  "; ""] "Page").
  by repeat constructor.
Defined.

(** ** Blocks that are well formed *)

Module BlockFacts.

Lemma flatten_step_prefix (n : nat) (pre fl : list string) (line : string) :
  flatten_step (mk_flat n (pre ++ fl)) line
  = mk_flat (in_class (flatten_step (mk_flat n fl) line))
            (pre ++ flattened_lines (flatten_step (mk_flat n fl) line)).
Proof.
  unfold flatten_step. simpl.
  destruct (startswith (strip line) "class "); [done|].
  destruct (String.eqb (strip line) "end");
    destruct (0 <? n)%nat; simpl; by rewrite <- ?(assoc_L (++)).
Qed.

Lemma flatten_fold_prefix (n : nat) (pre fl lines : list string) :
  foldl flatten_step (mk_flat n (pre ++ fl)) lines
  = mk_flat (in_class (foldl flatten_step (mk_flat n fl) lines))
            (pre ++ flattened_lines (foldl flatten_step (mk_flat n fl) lines)).
Proof.
  revert n fl. induction lines as [|line lines IH]; intros n fl; [done|].
  simpl. rewrite flatten_step_prefix.
  destruct (flatten_step (mk_flat n fl) line) as [n' fl']. simpl.
  apply IH.
Qed.

Lemma flatten_fold_body (n : nat) (fl body : list string) :
  Forall (λ l, startswith (strip l) "class " = false ∧ strip l ≠ "end") body →
  foldl flatten_step (mk_flat (S n) fl) body = mk_flat (S n) (fl ++ body).
Proof.
  revert fl. induction body as [|l body IH]; intros fl Hb; simpl.
  { by rewrite app_nil_r. }
  apply Forall_cons in Hb as [[Hclass Hend] Hb].
  unfold flatten_step at 2. simpl. rewrite Hclass.
  apply String.eqb_neq in Hend. rewrite Hend.
  rewrite IH by done. by rewrite <- (assoc_L (++)).
Qed.

Lemma leftovers_sublist (capturing : bool) (lines : list string) :
  leftovers capturing lines `sublist_of` lines.
Proof.
  revert capturing. induction lines as [|l lines IH]; intros c; simpl;
    [done|].
  destruct c; [by apply sublist_cons|].
  destruct (def_pattern l); [by apply sublist_cons|by apply sublist_skip].
Qed.

End BlockFacts.

(** X18.  Leftover lines keep the order of the input: they are a
    subsequence of the input lines. *)
Theorem leftover_in_input_order (lines : list string) :
  p_leftover (analyse_lines lines) `sublist_of` lines.
Proof.
  rewrite PipelineFacts.analyse_leftover.
  etrans; [apply BlockFacts.leftovers_sublist|].
  rewrite PipelineFacts.method_stream_spec.
  etrans; [apply sublist_filter|]. etrans; [apply sublist_filter|].
  unfold block_content.
  pose proof (FlattenMore.flatten_fold_sublist (mk_flat 0 []) [] lines
                (sublist_nil_l _)) as H.
  fold (flatten_classes lines) in H. simpl in H.
  by destruct (flatten_classes lines).
Qed.

(** X19.  Block extraction works block by block: after a prefix that
    closes every block it opened, the remaining lines are treated as an
    input of their own. *)
Theorem blocks_compose (l1 l2 : list string) :
  in_class (foldl flatten_step (mk_flat 0 []) l1) = 0 →
  flatten_classes (l1 ++ l2) = flatten_classes l1 ++ flatten_classes l2.
Proof.
  intros H0. unfold flatten_classes. rewrite foldl_app.
  destruct (foldl flatten_step (mk_flat 0 []) l1) as [n fl] eqn:Hst.
  simpl in H0. subst n. simpl.
  pose proof (BlockFacts.flatten_fold_prefix 0 fl [] l2) as H.
  rewrite app_nil_r in H. by rewrite H.
Qed.

Lemma blocks_compose_witness :
  flatten_classes (["class A"; "link(:a)"; "end"] ++ ["class B"; "x"; "end"])
  = flatten_classes ["class A"; "link(:a)"; "end"]
    ++ flatten_classes ["class B"; "x"; "end"].
Proof.
  apply (blocks_compose ["class A"; "link(:a)"; "end"]
           ["class B"; "x"; "end"]).
  reflexivity.
Defined.

(** X20.  A block whose body holds neither a [class] line nor an [end]
    line is retained whole, without its [class] line and its [end] line,
    and leaves no block open. *)
Theorem simple_block_retained (header : string) (body : list string)
    (closing : string) :
  startswith (strip header) "class " = true →
  strip closing = "end" →
  Forall (λ l, startswith (strip l) "class " = false ∧ strip l ≠ "end") body →
  flatten_classes (header :: body ++ [closing]) = body
  ∧ in_class (foldl flatten_step (mk_flat 0 []) (header :: body ++ [closing]))
    = 0.
Proof.
  intros Hh Hc Hb. unfold flatten_classes. simpl.
  unfold flatten_step at 2 4. rewrite Hh. simpl.
  rewrite !foldl_app, !BlockFacts.flatten_fold_body by done.
  simpl. unfold flatten_step. by rewrite Hc.
Qed.

Lemma simple_block_retained_witness :
  flatten_classes ("  class Login" :: ["include PageObject"; "link(:a)"]
                   ++ [" end "])
  = ["include PageObject"; "link(:a)"]
  ∧ in_class (foldl flatten_step (mk_flat 0 [])
                ("  class Login" :: ["include PageObject"; "link(:a)"]
                 ++ [" end "]))
    = 0.
Proof.
  apply (simple_block_retained "  class Login"
           ["include PageObject"; "link(:a)"] " end ");
    [reflexivity|reflexivity|by repeat constructor].
Defined.

(** X21.  A method that is defined once, with at least one line after its
    [def] line, is merged into itself: its lines are emitted unchanged. *)
Theorem single_definition_unchanged (opening line : string)
    (rest : list string) :
  unify_blocks [opening :: line :: rest]
  = Some (Some (join nl (opening :: line :: rest))).
Proof.
  rewrite MergeFacts.unify_blocks_spec by done.
  by rewrite FlattenFacts.merged_definition_single.
Qed.
